(** * Verification of the exam mixing core of siromix

    Shallow embedding of [lib/mixAlgorithm.ts] (seeded generator,
    Fisher-Yates shuffle, option remapper, variant builder, exam code
    allocator) and of the [AnswerKeyTable] component.

    JavaScript numbers are modelled as [Z] where every value involved is an
    integer; where the source multiplies or adds integers that may exceed
    2^53, the IEEE-754 double rounding of the result is written out as [fl]
    (round to nearest, ties to even, 53 significant bits). *)

From Stdlib Require Import ZArith Lia QArith Ascii String Wf_nat.
From stdpp Require Import base list sets strings.

Open Scope Z_scope.

(* ------------------------------------------------------------------ *)
(** ** Double arithmetic on integer values *)

(** Round the nonnegative integer [a] to a multiple of [2^e], nearest,
    ties to even. *)
Definition rnd (e a : Z) : Z :=
  let q := a / 2 ^ e in
  let r := a mod 2 ^ e in
  let h := 2 ^ (e - 1) in
  2 ^ e * (if (h <? r) || ((r =? h) && Z.odd q) then q + 1 else q).

(** The integer [x] rounded to 53 significant bits, nearest, ties to
    even, with no bound on the exponent. Integers below 2^53 in magnitude
    are exact. This is the double nearest to [x] as long as the result
    stays below 2^1024 in magnitude; it does not produce the infinities
    (see [fl_overflows]). *)
Definition fl (x : Z) : Z :=
  let a := Z.abs x in
  let e := Z.log2 a - 52 in
  if e <=? 0 then x else Z.sgn x * rnd e a.

(** IEEE-754 rounding of [x] gives an infinity instead of [fl x]: the
    rounded magnitude reaches 2^1024 (the largest finite double is
    2^1024 - 2^971). Statements about inputs that can reach it (the seed
    of the exported [seededRandom] and [shuffleArray]) bound the input so
    that it never holds; [Date.now()] is at most 8.64e15. *)
Definition fl_overflows (x : Z) : bool := 2 ^ 1024 <=? Z.abs (fl x).

(* ------------------------------------------------------------------ *)
(** ** Seeded generator ([seededRandom]) *)

Definition lcg_A : Z := 1664525.
Definition lcg_C : Z := 1013904223.
Definition two32 : Z := 2 ^ 32.

(** One call of the closure returned by [seededRandom]:
    [state = (state * 1664525 + 1013904223) % 2 ** 32]. The product and
    the sum are double operations ([fl]); JavaScript's [%] is the
    truncated remainder, [Z.rem]. *)
Definition seededRandom_step (state : Z) : Z :=
  Z.rem (fl (fl (state * lcg_A) + lcg_C)) two32.

(** The value returned with that state: [state / 2 ** 32] (exact, a power
    of two divisor). *)
Definition rng_value (state : Z) : Q := Qmake state 4294967296%positive.

(** The successive states after [n] calls of [seededRandom(seed)]. *)
Fixpoint seededRandom_states (state : Z) (n : nat) : list Z :=
  match n with
  | O => []
  | S n' => let s := seededRandom_step state in s :: seededRandom_states s n'
  end.

(** The first [n] values [next()] returns. *)
Definition seededRandom (seed : Z) (n : nat) : list Q :=
  map rng_value (seededRandom_states seed n).

(* ------------------------------------------------------------------ *)
(** ** JavaScript arrays *)

(** An array object: its elements ([None] is [undefined]) and the own
    properties written through a negative index: [arr[-1] = v] sets the
    plain property ["-1"], not an element, and a later [arr[-1]] reads it
    back. Every nonnegative integer key is an index (the arrays here hold
    far fewer than 2^32 - 1 elements). *)
Record JsArray (A : Type) := {
  elems : list (option A);
  props : list (Z * option A)
}.
Arguments elems {A}.
Arguments props {A}.

(** Reading a property; an absent one is [undefined]. *)
Fixpoint prop_get {A} (ps : list (Z * option A)) (k : Z) : option A :=
  match ps with
  | [] => None
  | (k', v) :: ps' => if Z.eqb k k' then v else prop_get ps' k
  end.

(** Writing a property: in place when present, else added. *)
Fixpoint prop_set {A} (ps : list (Z * option A)) (k : Z) (v : option A)
    : list (Z * option A) :=
  match ps with
  | [] => [(k, v)]
  | (k', v') :: ps' =>
      if Z.eqb k k' then (k, v) :: ps' else (k', v') :: prop_set ps' k v
  end.

(** [arr[j]]: an element for [j >= 0] ([undefined] past the end), a
    property for [j < 0]. *)
Definition js_get {A} (a : JsArray A) (j : Z) : option A :=
  if 0 <=? j then
    match elems a !! Z.to_nat j with Some v => v | None => None end
  else prop_get (props a) j.

(** [arr[j] = v]: inside the array an update of the element; beyond the
    end the array grows, the gap reading as [undefined] (the shuffle never
    writes there: its [j] and [i] stay below the length); a negative [j]
    writes the property. *)
Definition js_set {A} (a : JsArray A) (j : Z) (v : option A) : JsArray A :=
  if j <? 0 then {| elems := elems a; props := prop_set (props a) j v |}
  else if j <? Z.of_nat (length (elems a)) then
    {| elems := <[Z.to_nat j := v]> (elems a); props := props a |}
  else
    {| elems := elems a ++ replicate (Z.to_nat j - length (elems a)) None ++ [v];
       props := props a |}.

(** The values held by the defined slots of a list of slots. *)
Fixpoint present {A} (l : list (option A)) : list A :=
  match l with
  | [] => []
  | None :: l' => present l'
  | Some x :: l' => x :: present l'
  end.

(** An array with [f] applied to every value it holds. *)
Definition arr_map {A B} (f : A -> B) (a : JsArray A) : JsArray B :=
  {| elems := map (option_map f) (elems a);
     props := map (fun kv => (kv.1, option_map f kv.2)) (props a) |}.

(* ------------------------------------------------------------------ *)
(** ** Fisher-Yates shuffle ([shuffleArray]) *)

(** The loop [for (let i = n - 1; i > 0; i--)] with the generator state
    threaded through: [j = Math.floor(rng() * (i + 1))], then
    [[shuffled[i], shuffled[j]] = [shuffled[j], shuffled[i]]]
    (right-hand side read first, then [shuffled[i]], then [shuffled[j]]
    written). *)
Fixpoint shuffle_loop {A} (i : nat) (state : Z) (a : JsArray A) : JsArray A :=
  match i with
  | O => a
  | S i' =>
      let state' := seededRandom_step state in
      let j := fl (state' * (Z.of_nat i + 1)) / two32 in
      let x := js_get a j in
      let y := js_get a (Z.of_nat i) in
      shuffle_loop i' state' (js_set (js_set a (Z.of_nat i) x) j y)
  end.

(** [const shuffled = [...array]; ...; return shuffled]: the array object
    returned, with any property the loop wrote. Its callers iterate it
    with [map] and [forEach], which visit the elements only. *)
Definition shuffleArray {A} (array : list A) (seed : Z) : JsArray A :=
  shuffle_loop (length array - 1) seed {| elems := map Some array; props := [] |}.


(* ------------------------------------------------------------------ *)
(** ** Document model ([store/mixStore.ts]) *)

Module Store.

Inductive Segment :=
  | Text (text : string)
  | Image (asset_path : string)
  | Math (omml : string).

Record OptionItem := {
  label : string;
  locked : bool;
  content : list Segment
}.

Record Question := {
  number : Z;
  stem : list Segment;
  options : list OptionItem;
  correct_label : string
}.

Record ParsedDoc := { questions : list Question }.

End Store.

Import Store (Segment, OptionItem, Question, ParsedDoc).

(** Output types of [lib/mixAlgorithm.ts]. A [label] is [undefined]
    ([None]) when the option sits beyond the label table. An [examCode]
    is [undefined] when read past the end of the code array. *)
Record MixedOption := {
  label : option string;
  originalLabel : string;
  content : list Segment
}.

Record MixedQuestion := {
  originalNumber : Z;
  displayNumber : Z;
  stem : list Segment;
  options : list MixedOption;
  correctAnswer : string
}.

Record MixedExam := {
  examCode : option string;
  questions : list MixedQuestion
}.

(* ------------------------------------------------------------------ *)
(** ** Option remapper ([shuffleOptions]) *)

(** A JavaScript [Map<string, string>] in insertion order; a value may be
    [undefined]. [set] on a present key overwrites it in place. *)
Definition JsMap := list (string * option string).

Fixpoint map_set (m : JsMap) (k : string) (v : option string) : JsMap :=
  match m with
  | [] => [(k, v)]
  | (k', v') :: m' =>
      if String.eqb k k' then (k, v) :: m' else (k', v') :: map_set m' k v
  end.

(** [m.get(k)]: [None] when the key is absent. *)
Fixpoint map_get (m : JsMap) (k : string) : option (option string) :=
  match m with
  | [] => None
  | (k', v) :: m' => if String.eqb k k' then Some v else map_get m' k
  end.

Definition labels : list string := ["A"; "B"; "C"; "D"; "E"; "F"].

(** [shuffled.map((opt, idx) => ...)] with the [mapping.set] side effect;
    [None] is the [TypeError] of reading [opt.label] on [undefined]. *)
Fixpoint remap_loop (idx : nat) (l : list (option OptionItem)) (mapping : JsMap)
    : option (list MixedOption * JsMap) :=
  match l with
  | [] => Some ([], mapping)
  | None :: _ => None
  | Some opt :: l' =>
      let newLabel := labels !! idx in
      let mapping' := map_set mapping (Store.label opt) newLabel in
      match remap_loop (S idx) l' mapping' with
      | None => None
      | Some (rs, m) =>
          Some ({| label := newLabel; originalLabel := Store.label opt;
                   content := Store.content opt |} :: rs, m)
      end
  end.

Definition shuffleOptions (options : list OptionItem) (seed : Z)
    : option (list MixedOption * JsMap) :=
  remap_loop 0 (elems (shuffleArray options seed)) [].

(* ------------------------------------------------------------------ *)
(** ** Variant builder ([mixExam]) *)

(** [mapping.get(q.correct_label) || q.correct_label]: [undefined] and
    the empty string are falsy. *)
Definition or_default (v : option (option string)) (d : string) : string :=
  match v with
  | Some (Some s) => if String.eqb s "" then d else s
  | _ => d
  end.

(** The body of [shuffledQuestions.forEach((q, idx) => ...)]; [None] is
    the [TypeError] of reading [q.options] on [undefined]. *)
Definition mixQuestion (q : option Question) (idx : nat) (seed : Z)
    : option MixedQuestion :=
  match q with
  | None => None
  | Some q =>
      match shuffleOptions (Store.options q) (seed + Z.of_nat idx) with
      | None => None
      | Some (shuffled, mapping) =>
          Some {| originalNumber := Store.number q;
                  displayNumber := Z.of_nat idx + 1;
                  stem := Store.stem q;
                  options := shuffled;
                  correctAnswer := or_default (map_get mapping (Store.correct_label q))
                                              (Store.correct_label q) |}
      end
  end.

Fixpoint mixVariant_loop (idx : nat) (l : list (option Question)) (seed : Z)
    : option (list MixedQuestion) :=
  match l with
  | [] => Some []
  | q :: l' =>
      match mixQuestion q idx seed with
      | None => None
      | Some mq =>
          match mixVariant_loop (S idx) l' seed with
          | None => None
          | Some rest => Some (mq :: rest)
          end
      end
  end.

(** Steps 1 and 2 of one iteration of the variant loop. *)
Definition mixVariant (doc : ParsedDoc) (seed : Z) : option (list MixedQuestion) :=
  mixVariant_loop 0 (elems (shuffleArray (Store.questions doc) seed)) seed.

(* ------------------------------------------------------------------ *)
(** ** Exam code allocator ([generateExamCode], [generateExamCodes]) *)

(** [Number.prototype.toString] on a nonnegative integer below 10^21
    (at most 21 decimal digits, no exponent notation). *)
Fixpoint digits_aux (fuel : nat) (n : Z) (acc : string) : string :=
  match fuel with
  | O => acc
  | S f =>
      let acc' := String (ascii_of_nat (48 + Z.to_nat (n mod 10))) acc in
      if n <? 10 then acc' else digits_aux f (n / 10) acc'
  end.

Definition number_toString (n : Z) : string :=
  if n <? 0 then String "-" (digits_aux 21 (- n) "") else digits_aux 21 n "".

(** A draw of [Math.random()] is the double [k / 2^53] with
    [0 <= k < 2^53]. [Math.floor(100 + Math.random() * 900)]: the product
    is the double [fl (900 k) / 2^53], the sum [fl (100 2^53 + fl (900 k)) / 2^53]
    (scaling by a power of two commutes with rounding). *)
Definition generateExamCode (k : Z) : string :=
  number_toString (fl (100 * 2 ^ 53 + fl (900 * k)) / 2 ^ 53).

(** [codes.add(c)] on a [Set<string>] kept in insertion order. *)
Definition set_add (codes : list string) (c : string) : list string :=
  if bool_decide (c ∈ codes) then codes else codes ++ [c].

(** [while (codes.size < count) codes.add(generateExamCode())] over a
    finite supply of draws; [None] when the supply runs out while the loop
    still runs. *)
Fixpoint gen_loop (count : Z) (codes : list string) (draws : list Z)
    : option (list string) :=
  if Z.of_nat (length codes) <? count then
    match draws with
    | [] => None
    | k :: ds => gen_loop count (set_add codes (generateExamCode k)) ds
    end
  else Some codes.

Definition generateExamCodes (count : Z) (draws : list Z) : option (list string) :=
  gen_loop count [] draws.

(* ------------------------------------------------------------------ *)
(** ** [mixExam] *)

Inductive MixError :=
  | RandomSourceExhausted  (** the draws given did not finish the code loop *)
  | TypeError.             (** a property read on [undefined] *)

(** [for (let v = 0; v < numVariants; v++)], [v] counting up from [v0]
    with [n] iterations left; [now v] is the value of [Date.now()] read in
    iteration [v]. *)
Fixpoint variants_loop (now : nat -> Z) (doc : ParsedDoc) (codes : list string)
    (v : nat) (n : nat) : MixError + list MixedExam :=
  match n with
  | O => inr []
  | S n' =>
      let seed := now v + Z.of_nat v * 1000 in
      match mixVariant doc seed with
      | None => inl TypeError
      | Some mqs =>
          match variants_loop now doc codes (S v) n' with
          | inl e => inl e
          | inr vs => inr ({| examCode := codes !! v; questions := mqs |} :: vs)
          end
      end
  end.

Definition mixExam (now : nat -> Z) (draws : list Z) (parsedDoc : ParsedDoc)
    (numVariants : Z) : MixError + list MixedExam :=
  match generateExamCodes numVariants draws with
  | None => inl RandomSourceExhausted
  | Some codes => variants_loop now parsedDoc codes 0 (Z.to_nat numVariants)
  end.

(* ------------------------------------------------------------------ *)
(** ** Answer key table ([AnswerKeyTable]) *)

(** [s || "-"] on a string. *)
Definition or_dash (s : string) : string := if String.eqb s "" then "-" else s.

(** [exam.questions.find((q) => q.displayNumber === questionNumber)],
    then [question?.correctAnswer || "-"]. *)
Definition answer_cell (questionNumber : Z) (exam : MixedExam) : string :=
  match List.find (fun q => Z.eqb (displayNumber q) questionNumber) (questions exam) with
  | Some q => or_dash (correctAnswer q)
  | None => "-"
  end.

Record AnswerKeyRow := {
  row_number : Z;
  row_original : string;
  row_cells : list string
}.

(** The rows of the table body: [numQuestions] is the length of the first
    exam's question list ([0] when there is none). *)
Definition AnswerKeyTable (mixedExams : list MixedExam) (originalAnswers : list string)
    : list AnswerKeyRow :=
  let numQuestions :=
    match mixedExams with [] => 0%nat | e :: _ => length (questions e) end in
  map (fun idx =>
         let questionNumber := Z.of_nat idx + 1 in
         {| row_number := questionNumber;
            row_original :=
              match originalAnswers !! idx with Some s => or_dash s | None => "-" end;
            row_cells := map (answer_cell questionNumber) mixedExams |})
      (seq 0 numQuestions).

(* ------------------------------------------------------------------ *)
(** ** Affine view of the generator step *)

Definition aff_apply (p : Z * Z) (x : Z) : Z := (p.1 * x + p.2) mod two32.
Definition aff_sq (p : Z * Z) : Z * Z :=
  ((p.1 * p.1) mod two32, (p.1 * p.2 + p.2) mod two32).
Definition aff_pow2 (k : nat) : Z * Z := Nat.iter k aff_sq (lcg_A, lcg_C).

(** ** Views of the remapped options *)

Definition option_view (o : OptionItem) : string * list Segment :=
  (Store.label o, Store.content o).

(** [last_label rs k] is the label given to the last option of [rs] whose
    original label is [k]: what [mapping.get(k)] holds after the remapping loop. *)
Fixpoint last_label (rs : list MixedOption) (k : string) : option (option string) :=
  match rs with
  | [] => None
  | mo :: rs' =>
      match last_label rs' k with
      | Some v => Some v
      | None => if String.eqb (originalLabel mo) k then Some (label mo) else None
      end
  end.

(** ** Result page ([MixedResultPage] in [pages/MixedResult/MixedResultPage.tsx]) *)

Inductive ResultView :=
  | Navigate (path : string)
  | Render (numVariants numQuestions : nat) (codes : list (option string))
           (originalAnswers : list string) (table : list AnswerKeyRow).

Definition MixedResultPage (mixedExams : option (list MixedExam))
    (parsedData : option ParsedDoc) (jobId : option string) : ResultView :=
  match mixedExams with
  | None | Some [] =>
      Navigate ("/preview/" ++ match jobId with Some s => s | None => "" end)
  | Some exams =>
      let originalAnswers :=
        match parsedData with
        | Some d => map Store.correct_label (Store.questions d)
        | None => []
        end in
      let numQuestions :=
        match exams with [] => 0%nat | e :: _ => length (questions e) end in
      Render (length exams) numQuestions (map examCode exams) originalAnswers
             (AnswerKeyTable exams originalAnswers)
  end.

(** ** Reading of the claims *)

(** The answer-key cell as the spec describes it: the relocated correct
    label of the question whose [originalNumber] is the row's source
    question number. *)
Definition spec_answer_cell (questionNumber : Z) (exam : MixedExam) : string :=
  match List.find (fun q => Z.eqb (originalNumber q) questionNumber) (questions exam) with
  | Some q => correctAnswer q
  | None => "-"
  end.

(** The 900 decimal strings of 100 .. 999. *)
Definition exam_code_space : list string :=
  map (fun i => number_toString (100 + Z.of_nat i)) (seq 0 900).

(** A draw [k] (the double [k / 2^53]) that yields code [100 + i]. *)
Definition draw_for (i : nat) : Z := (Z.of_nat i * 2 ^ 53 + 899) / 900.

(* ------------------------------------------------------------------ *)
(** ** Sample inputs *)

Definition sample_option (l : string) : OptionItem :=
  {| Store.label := l; Store.locked := false;
     Store.content := [Store.Text ("option " ++ l)] |}.

Definition sample_question (n : Z) (opts : list string) (c : string) : Question :=
  {| Store.number := n; Store.stem := [Store.Text "stem"];
     Store.options := map sample_option opts; Store.correct_label := c |}.

Definition abcd : list string := ["A"; "B"; "C"; "D"].

(** Scenario (a) of the spec: two questions, correct labels B and A. *)
Definition doc_two : ParsedDoc :=
  {| Store.questions := [sample_question 1 abcd "B"; sample_question 2 abcd "A"] |}.

(** A question whose correct label matches none of its options. *)
Definition doc_bad_label : ParsedDoc :=
  {| Store.questions := [sample_question 1 abcd "Z"] |}.

(** A question with seven options, the correct one labelled B. *)
Definition doc_seven : ParsedDoc :=
  {| Store.questions := [sample_question 1 ["A"; "B"; "C"; "D"; "E"; "F"; "G"] "B"] |}.

(* ------------------------------------------------------------------ *)
Definition locked_option (l : string) : OptionItem :=
  {| Store.label := l; Store.locked := true;
     Store.content := [Store.Text ("option " ++ l)] |}.

(** ** Rounding lemmas *)

Lemma pow_pred_double e : 1 <= e -> 2 ^ e = 2 * 2 ^ (e - 1).
Proof.
  intros He. replace e with (Z.succ (e - 1)) at 1 by lia.
  rewrite Z.pow_succ_r by lia. lia.
Qed.

Lemma rnd_nonneg e a : 1 <= e -> 0 <= a -> 0 <= rnd e a.
Proof.
  intros He Ha. unfold rnd.
  assert (0 < 2 ^ e) by (apply Z.pow_pos_nonneg; lia).
  assert (0 <= a / 2 ^ e) by (apply Z.div_pos; lia).
  destruct (_ || _); nia.
Qed.

Lemma rnd_le e a : 1 <= e -> 0 <= a -> rnd e a <= a + 2 ^ (e - 1).
Proof.
  intros He Ha. unfold rnd.
  pose proof (pow_pred_double e He) as Hp.
  assert (0 < 2 ^ (e - 1)) by (apply Z.pow_pos_nonneg; lia).
  pose proof (Z.div_mod a (2 ^ e) ltac:(lia)) as Hdm.
  pose proof (Z.mod_pos_bound a (2 ^ e) ltac:(lia)) as Hb.
  set (q := a / 2 ^ e) in *. set (r := a mod 2 ^ e) in *.
  destruct ((2 ^ (e - 1) <? r) || ((r =? 2 ^ (e - 1)) && Z.odd q)) eqn:Hc.
  - apply orb_true_iff in Hc as [Hc|Hc].
    + apply Z.ltb_lt in Hc. nia.
    + apply andb_true_iff in Hc as [Hc _]. apply Z.eqb_eq in Hc. nia.
  - nia.
Qed.

Lemma fl_exact x : Z.abs x < 2 ^ 53 -> fl x = x.
Proof.
  intros Hx. unfold fl.
  destruct (Z.eq_dec x 0) as [->|Hx0]; [reflexivity|].
  assert (Z.log2 (Z.abs x) < 53).
  { apply Z.log2_lt_pow2; lia. }
  replace (Z.log2 (Z.abs x) - 52 <=? 0) with true by (symmetry; apply Z.leb_le; lia).
  reflexivity.
Qed.

Lemma fl_pos_rnd x :
  0 <= x -> 0 < Z.log2 x - 52 -> fl x = rnd (Z.log2 x - 52) x.
Proof.
  intros Hx He. unfold fl.
  assert (0 < x).
  { destruct (Z.eq_dec x 0) as [->|]; [simpl in He; lia | lia]. }
  rewrite Z.abs_eq by lia.
  replace (Z.log2 x - 52 <=? 0) with false by (symmetry; apply Z.leb_gt; lia).
  rewrite Z.sgn_pos by lia. lia.
Qed.

Lemma fl_nonneg x : 0 <= x -> 0 <= fl x.
Proof.
  intros Hx. destruct (Z.leb_spec (Z.log2 x - 52) 0).
  - rewrite fl_exact; [lia|].
    rewrite Z.abs_eq by lia.
    destruct (Z.eq_dec x 0) as [->|]; [lia|].
    apply Z.log2_lt_pow2; lia.
  - rewrite fl_pos_rnd by lia. apply rnd_nonneg; lia.
Qed.

(** Relative error: rounding up adds at most [x / 2^53]. *)
Lemma fl_le x : 0 <= x -> fl x <= x + x / 2 ^ 53.
Proof.
  intros Hx.
  assert (0 <= x / 2 ^ 53) by (apply Z.div_pos; lia).
  destruct (Z.leb_spec (Z.log2 x - 52) 0).
  - rewrite fl_exact; [lia|].
    rewrite Z.abs_eq by lia.
    destruct (Z.eq_dec x 0) as [->|]; [lia|].
    apply Z.log2_lt_pow2; lia.
  - rewrite fl_pos_rnd by lia.
    set (e := Z.log2 x - 52) in *.
    pose proof (rnd_le e x ltac:(lia) Hx).
    assert (2 ^ (e - 1) <= x / 2 ^ 53).
    { apply Z.div_le_lower_bound; [lia|].
      rewrite <- Z.pow_add_r by lia.
      replace (53 + (e - 1)) with (Z.log2 x) by lia.
      apply Z.log2_spec.
      destruct (Z.eq_dec x 0) as [->|]; [simpl in *; lia | lia]. }
    lia.
Qed.

(* ------------------------------------------------------------------ *)
(** ** Generator and shuffle lemmas *)

Lemma seededRandom_step_range st :
  0 <= st -> 0 <= seededRandom_step st < two32.
Proof.
  intros Hst. unfold seededRandom_step, lcg_A, lcg_C, two32.
  pose proof (fl_nonneg (st * 1664525) ltac:(lia)).
  pose proof (fl_nonneg (fl (st * 1664525) + 1013904223) ltac:(lia)).
  apply Z.rem_bound_pos; lia.
Qed.

Lemma shuffle_index_range st (i : Z) :
  0 <= st < two32 -> 0 <= i -> 0 <= fl (st * (i + 1)) / two32 <= i.
Proof.
  unfold two32. intros Hst Hi.
  pose proof (fl_nonneg (st * (i + 1)) ltac:(nia)).
  pose proof (fl_le (st * (i + 1)) ltac:(nia)).
  assert (st * (i + 1) / 2 ^ 53 < i + 1).
  { apply Z.div_lt_upper_bound; [lia|]. nia. }
  split.
  - apply Z.div_pos; lia.
  - assert (fl (st * (i + 1)) / 2 ^ 32 < i + 1); [|lia].
    apply Z.div_lt_upper_bound; [lia|]. nia.
Qed.

Lemma js_get_lookup {A} (a : JsArray A) j :
  0 <= j < Z.of_nat (length (elems a)) -> elems a !! Z.to_nat j = Some (js_get a j).
Proof.
  intros Hj. unfold js_get.
  replace (0 <=? j) with true by (symmetry; apply Z.leb_le; lia).
  destruct (elems a !! Z.to_nat j) eqn:E; [reflexivity|].
  apply lookup_ge_None in E. lia.
Qed.

Lemma js_set_insert {A} (a : JsArray A) j v :
  0 <= j < Z.of_nat (length (elems a)) ->
  js_set a j v = {| elems := <[Z.to_nat j := v]> (elems a); props := props a |}.
Proof.
  intros Hj. unfold js_set.
  replace (j <? 0) with false by (symmetry; apply Z.ltb_ge; lia).
  replace (j <? Z.of_nat (length (elems a))) with true by (symmetry; apply Z.ltb_lt; lia).
  reflexivity.
Qed.

Lemma shuffle_loop_perm {A} (i : nat) st (a : JsArray A) :
  0 <= st -> (i < length (elems a))%nat \/ i = 0%nat ->
  elems (shuffle_loop i st a) ≡ₚ elems a.
Proof.
  revert st a. induction i as [|i IH]; intros st a Hst Hi; [reflexivity|].
  simpl.
  set (st' := seededRandom_step st).
  pose proof (seededRandom_step_range st Hst) as Hr. fold st' in Hr.
  set (j := fl (st' * (Z.of_nat (S i) + 1)) / two32).
  pose proof (shuffle_index_range st' (Z.of_nat (S i)) Hr ltac:(lia)) as Hj.
  fold j in Hj.
  assert (Hlen : (S i < length (elems a))%nat) by lia.
  rewrite (js_set_insert a (Z.of_nat (S i))) by lia.
  rewrite (js_set_insert _ j) by (simpl; rewrite length_insert; lia).
  assert (Hsw : <[Z.to_nat j:=js_get a (Z.of_nat (S i))]>
             (<[Z.to_nat (Z.of_nat (S i)):=js_get a j]> (elems a)) ≡ₚ elems a).
  { apply Permutation_insert_swap; apply js_get_lookup; lia. }
  etrans; [|exact Hsw].
  apply IH; [lia|].
  left. simpl. rewrite !length_insert. lia.
Qed.

Lemma shuffleArray_perm {A} (array : list A) seed :
  0 <= seed -> elems (shuffleArray array seed) ≡ₚ map Some array.
Proof.
  intros Hs. unfold shuffleArray. apply shuffle_loop_perm; [exact Hs|].
  simpl. rewrite length_map. destruct (length array); [right; reflexivity | left; lia].
Qed.

Lemma shuffleArray_short {A} (array : list A) seed :
  (length array <= 1)%nat -> elems (shuffleArray array seed) = map Some array.
Proof.
  intros H. unfold shuffleArray.
  replace (length array - 1)%nat with 0%nat by lia. reflexivity.
Qed.


Lemma shuffleArray_defined {A} (array : list A) seed :
  0 <= seed -> exists ys, elems (shuffleArray array seed) = map Some ys /\ ys ≡ₚ array.
Proof.
  intros Hs. pose proof (shuffleArray_perm array seed Hs) as Hp.
  apply Permutation_map_inv in Hp as (ys & Heq & Hys).
  exists ys. split; [exact Heq | symmetry; exact Hys].
Qed.

(* ------------------------------------------------------------------ *)
(** ** Remapper lemmas *)

Lemma map_get_set m k v k' :
  map_get (map_set m k v) k' = if String.eqb k' k then Some v else map_get m k'.
Proof.
  induction m as [|[k0 v0] m IH]; simpl.
  - destruct (String.eqb k' k); reflexivity.
  - destruct (String.eqb k k0) eqn:E1; simpl.
    + apply String.eqb_eq in E1 as ->. destruct (String.eqb k' k0); reflexivity.
    + destruct (String.eqb k' k0) eqn:E2.
      * apply String.eqb_eq in E2 as ->.
        rewrite String.eqb_sym, E1. reflexivity.
      * exact IH.
Qed.

Lemma map_set_keys m k v :
  map fst (map_set m k v) = if bool_decide (k ∈ map fst m) then map fst m else map fst m ++ [k].
Proof.
  induction m as [|[k0 v0] m IH]; cbn [map_set map fst].
  - rewrite bool_decide_false by set_solver. reflexivity.
  - destruct (String.eqb k k0) eqn:E; cbn [map fst].
    + apply String.eqb_eq in E as ->. rewrite bool_decide_true by set_solver. reflexivity.
    + apply String.eqb_neq in E. rewrite IH.
      destruct (bool_decide (k ∈ map fst m)) eqn:B.
      * apply bool_decide_eq_true in B. rewrite bool_decide_true by set_solver. reflexivity.
      * apply bool_decide_eq_false in B. rewrite bool_decide_false by set_solver. reflexivity.
Qed.

Lemma map_set_keys_NoDup m k v :
  NoDup (map fst m) -> NoDup (map fst (map_set m k v)).
Proof.
  intros H. rewrite map_set_keys. case_bool_decide; [exact H|].
  apply NoDup_app. split; [exact H|]. split; [|apply NoDup_singleton].
  intros x Hx Hx'. apply list_elem_of_singleton in Hx' as ->. contradiction.
Qed.

Lemma map_set_keys_elem m k v x :
  x ∈ map fst (map_set m k v) <-> x ∈ map fst m \/ x = k.
Proof.
  rewrite map_set_keys. case_bool_decide.
  - split; [tauto|]. intros [?| ->]; assumption.
  - rewrite elem_of_app, list_elem_of_singleton. reflexivity.
Qed.

Section Remap.

Variable xs : list OptionItem.

Lemma remap_loop_defined idx (m : JsMap) :
  exists rs m', remap_loop idx (map Some xs) m = Some (rs, m') /\
    map originalLabel rs = map Store.label xs /\
    map content rs = map Store.content xs /\
    map label rs = map (fun i => labels !! i) (seq idx (length xs)) /\
    (NoDup (map fst m) -> NoDup (map fst m')) /\
    (forall k, k ∈ map fst m' <-> k ∈ map fst m \/ k ∈ map Store.label xs) /\
    (forall k, k ∉ map Store.label xs -> map_get m' k = map_get m k).
Proof.
  clear. revert idx m. induction xs as [|x xs' IH]; intros idx m; simpl.
  - exists [], m. split; [reflexivity|]. split; [reflexivity|].
    split; [reflexivity|]. split; [reflexivity|]. split; [tauto|]. split.
    + intros k. rewrite elem_of_nil. tauto.
    + intros k _. reflexivity.
  - destruct (IH (S idx) (map_set m (Store.label x) (labels !! idx)))
      as (rs & m' & Heq & Hol & Hc & Hl & Hnd & Hk & Hg).
    rewrite Heq. eexists _, m'. split; [reflexivity|].
    simpl. rewrite Hol, Hc, Hl. split; [reflexivity|]. split; [reflexivity|].
    split; [reflexivity|]. split; [|split].
    + intros H. apply Hnd. apply map_set_keys_NoDup. exact H.
    + intros k. split.
      { intros Hx. apply Hk in Hx as [Hx|Hx].
        - apply map_set_keys_elem in Hx as [Hx| ->]; [left; exact Hx|].
          right. left.
        - right. right. exact Hx. }
      intros [Hx|Hx].
      * apply Hk. left. apply map_set_keys_elem. left. exact Hx.
      * apply elem_of_cons in Hx as [->|Hx].
        -- apply Hk. left. apply map_set_keys_elem. right. reflexivity.
        -- apply Hk. right. exact Hx.
    + intros k Hnk. rewrite Hg by (intros Hin; apply Hnk; right; exact Hin).
      rewrite map_get_set.
      destruct (String.eqb k (Store.label x)) eqn:E; [|reflexivity].
      apply String.eqb_eq in E as ->. exfalso. apply Hnk. left.
Qed.

End Remap.

Lemma elem_of_list_map {A B} (f : A -> B) (l : list A) y :
  y ∈ map f l <-> exists x, f x = y /\ x ∈ l.
Proof.
  rewrite list_elem_of_In, in_map_iff.
  split; intros (x & Hx & Hin); exists x; split; try exact Hx;
    apply list_elem_of_In; exact Hin.
Qed.

Lemma filter_length_0 (k : string) (xs : list OptionItem) :
  length (filter (fun x => Store.label x = k) xs) = 0%nat -> k ∉ map Store.label xs.
Proof.
  intros H Hk. apply elem_of_list_map in Hk as (x & Hx & Hin).
  assert (x ∈ filter (fun x => Store.label x = k) xs) as Hf.
  { apply list_elem_of_filter. split; [exact Hx | exact Hin]. }
  destruct (filter _ xs); [apply elem_of_nil in Hf; exact Hf | simpl in H; lia].
Qed.

Lemma remap_loop_get_unique (xs : list OptionItem) idx m rs m' k :
  remap_loop idx (map Some xs) m = Some (rs, m') ->
  length (filter (fun x => Store.label x = k) xs) = 1%nat ->
  exists mo, mo ∈ rs /\ originalLabel mo = k /\ map_get m' k = Some (label mo) /\
    (forall mo', mo' ∈ rs -> originalLabel mo' = k -> mo' = mo).
Proof.
  revert idx m rs. induction xs as [|x xs IH]; intros idx m rs Hr Hf.
  - simpl in Hf. lia.
  - simpl in Hr.
    set (m1 := map_set m (Store.label x) (labels !! idx)) in Hr.
    destruct (remap_loop (S idx) (map Some xs) m1) as [[rs' m'']|] eqn:E; [|discriminate].
    injection Hr as <- <-.
    destruct (remap_loop_defined xs (S idx) m1)
      as (rs2 & m2 & E2 & Hol & _ & _ & _ & _ & Hg).
    rewrite E in E2. injection E2 as <- <-.
    rewrite filter_cons in Hf.
    destruct (decide (Store.label x = k)) as [Hx|Hx].
    + simpl in Hf. injection Hf as Hf.
      apply filter_length_0 in Hf.
      eexists. split; [left|]. split; [exact Hx|]. split.
      * rewrite Hg by exact Hf. unfold m1. rewrite map_get_set.
        rewrite Hx, String.eqb_refl. reflexivity.
      * intros mo' Hmo' Hk. apply elem_of_cons in Hmo' as [->|Hmo']; [reflexivity|].
        exfalso. apply Hf. rewrite <- Hol. apply elem_of_list_map.
        exists mo'. split; [exact Hk | exact Hmo'].
    + destruct (IH (S idx) m1 rs' E Hf) as (mo & Hmo & Hk & Hget & Huniq).
      exists mo. split; [right; exact Hmo|]. split; [exact Hk|]. split; [exact Hget|].
      intros mo' Hmo' Hk'. apply elem_of_cons in Hmo' as [->|Hmo'].
      * simpl in Hk'. contradiction.
      * apply Huniq; assumption.
Qed.

(* ------------------------------------------------------------------ *)
(** ** Variant builder lemmas *)

Lemma shuffleOptions_defined (opts : list OptionItem) seed :
  0 <= seed ->
  exists ys rs m, elems (shuffleArray opts seed) = map Some ys /\ ys ≡ₚ opts /\
    shuffleOptions opts seed = Some (rs, m) /\
    map originalLabel rs = map Store.label ys /\
    map content rs = map Store.content ys /\
    map label rs = map (fun i => labels !! i) (seq 0 (length opts)) /\
    NoDup (map fst m) /\
    (forall k, k ∈ map fst m <-> k ∈ map Store.label opts) /\
    (forall k, k ∉ map Store.label opts -> map_get m k = None).
Proof.
  intros Hs. destruct (shuffleArray_defined opts seed Hs) as (ys & Hsh & Hp).
  destruct (remap_loop_defined ys 0 [])
    as (rs & m & Hr & Hol & Hc & Hl & Hnd & Hk & Hg).
  exists ys, rs, m. unfold shuffleOptions. rewrite Hsh, Hr.
  assert (Hpl : map Store.label ys ≡ₚ map Store.label opts) by (rewrite Hp; reflexivity).
  split; [reflexivity|]. split; [exact Hp|]. split; [reflexivity|].
  split; [exact Hol|]. split; [exact Hc|]. split.
  { rewrite Hl. rewrite (Permutation_length Hp). reflexivity. }
  split; [apply Hnd; constructor|]. split.
  - intros k. rewrite Hk, <- Hpl. rewrite elem_of_nil. tauto.
  - intros k Hnk. rewrite Hg; [reflexivity|]. rewrite Hpl. exact Hnk.
Qed.

Lemma mixQuestion_defined (q : Question) idx seed :
  0 <= seed + Z.of_nat idx ->
  exists mq, mixQuestion (Some q) idx seed = Some mq.
Proof.
  intros Hs. destruct (shuffleOptions_defined (Store.options q) _ Hs)
    as (ys & rs & m & _ & _ & Ho & _).
  unfold mixQuestion. rewrite Ho. eexists. reflexivity.
Qed.

Lemma mixVariant_loop_spec idx (l : list (option Question)) seed mqs :
  mixVariant_loop idx l seed = Some mqs ->
  length mqs = length l /\
  forall p mq, mqs !! p = Some mq ->
    exists q, l !! p = Some q /\ mixQuestion q (idx + p) seed = Some mq.
Proof.
  revert idx mqs. induction l as [|q l IH]; intros idx mqs H; simpl in H.
  - injection H as <-. split; [reflexivity|]. intros p mq Hp. rewrite lookup_nil in Hp. discriminate.
  - destruct (mixQuestion q idx seed) as [mq0|] eqn:E0; [|discriminate].
    destruct (mixVariant_loop (S idx) l seed) as [rest|] eqn:E1; [|discriminate].
    injection H as <-. destruct (IH (S idx) rest E1) as [Hlen Hp].
    split; [simpl; rewrite Hlen; reflexivity|].
    intros [|p] mq Hmq; simpl in Hmq.
    + injection Hmq as <-. exists q. split; [reflexivity|]. rewrite Nat.add_0_r. exact E0.
    + destruct (Hp p mq Hmq) as (q' & Hq' & Hm). exists q'. split; [exact Hq'|].
      replace (idx + S p)%nat with (S idx + p)%nat by lia. exact Hm.
Qed.

Lemma mixVariant_loop_defined idx (qs : list Question) seed :
  0 <= seed -> exists mqs, mixVariant_loop idx (map Some qs) seed = Some mqs.
Proof.
  revert idx. induction qs as [|q qs IH]; intros idx Hs; cbn [map mixVariant_loop].
  - eexists. reflexivity.
  - destruct (mixQuestion_defined q idx seed ltac:(lia)) as [mq Hmq]. rewrite Hmq.
    destruct (IH (S idx) Hs) as [mqs Hmqs]. rewrite Hmqs. eexists. reflexivity.
Qed.

(** Every question of a variant is the mixed form of a source question,
    built at its display position with a nonnegative seed. *)
Lemma mixVariant_spec (doc : ParsedDoc) seed mqs :
  0 <= seed -> mixVariant doc seed = Some mqs ->
  length mqs = length (Store.questions doc) /\
  forall p mq, mqs !! p = Some mq ->
    exists q, q ∈ Store.questions doc /\ mixQuestion (Some q) p seed = Some mq.
Proof.
  intros Hs H. unfold mixVariant in H.
  destruct (shuffleArray_defined (Store.questions doc) seed Hs) as (ys & Hsh & Hp).
  rewrite Hsh in H. destruct (mixVariant_loop_spec 0 _ seed mqs H) as [Hlen Hq].
  split; [rewrite Hlen, length_map; apply Permutation_length; exact Hp|].
  intros p mq Hmq. destruct (Hq p mq Hmq) as (oq & Hoq & Hm).
  rewrite list_lookup_fmap in Hoq.
  destruct (ys !! p) as [q|] eqn:Eq; simpl in Hoq; [|discriminate].
  injection Hoq as <-. exists q. split.
  - rewrite <- Hp. apply list_elem_of_lookup. exists p. exact Eq.
  - exact Hm.
Qed.

Lemma mixVariant_defined (doc : ParsedDoc) seed :
  0 <= seed -> exists mqs, mixVariant doc seed = Some mqs.
Proof.
  intros Hs. unfold mixVariant.
  destruct (shuffleArray_defined (Store.questions doc) seed Hs) as (ys & Hsh & _).
  rewrite Hsh. apply mixVariant_loop_defined. exact Hs.
Qed.

Lemma variants_loop_spec now (doc : ParsedDoc) codes v n vs :
  variants_loop now doc codes v n = inr vs ->
  length vs = n /\
  forall p e, vs !! p = Some e ->
    examCode e = codes !! (v + p)%nat /\
    mixVariant doc (now (v + p)%nat + Z.of_nat (v + p) * 1000) = Some (questions e).
Proof.
  revert v vs. induction n as [|n IH]; intros v vs H; simpl in H.
  - injection H as <-. split; [reflexivity|]. intros p e Hp. rewrite lookup_nil in Hp. discriminate.
  - destruct (mixVariant doc (now v + Z.of_nat v * 1000)) as [mqs|] eqn:E0; [|discriminate].
    destruct (variants_loop now doc codes (S v) n) as [err|rest] eqn:E1; [discriminate|].
    injection H as <-. destruct (IH (S v) rest E1) as [Hlen Hp].
    split; [simpl; rewrite Hlen; reflexivity|].
    intros [|p] e He; simpl in He.
    + injection He as <-. rewrite Nat.add_0_r. split; [reflexivity | exact E0].
    + replace (v + S p)%nat with (S v + p)%nat by lia. exact (Hp p e He).
Qed.

Lemma variants_loop_defined now (doc : ParsedDoc) codes v n :
  (forall v, 0 <= now v) -> exists vs, variants_loop now doc codes v n = inr vs.
Proof.
  intros Hnow. revert v. induction n as [|n IH]; intros v; simpl.
  - eexists. reflexivity.
  - destruct (mixVariant_defined doc (now v + Z.of_nat v * 1000)) as [mqs Hm].
    { pose proof (Hnow v). lia. }
    rewrite Hm. destruct (IH (S v)) as [vs Hvs]. rewrite Hvs. eexists. reflexivity.
Qed.

(* ------------------------------------------------------------------ *)
(** ** Code allocator lemmas *)

Lemma set_add_elem codes c x : x ∈ set_add codes c <-> x ∈ codes \/ x = c.
Proof.
  unfold set_add. case_bool_decide.
  - split; [tauto|]. intros [?| ->]; assumption.
  - rewrite elem_of_app, list_elem_of_singleton. reflexivity.
Qed.

Lemma set_add_NoDup codes c : NoDup codes -> NoDup (set_add codes c).
Proof.
  intros H. unfold set_add. case_bool_decide; [exact H|].
  apply NoDup_app. split; [exact H|]. split; [|apply NoDup_singleton].
  intros x Hx Hx'. apply list_elem_of_singleton in Hx' as ->. contradiction.
Qed.

Lemma set_add_length codes c : (length (set_add codes c) <= S (length codes))%nat.
Proof.
  unfold set_add. case_bool_decide; [lia|]. rewrite length_app. simpl. lia.
Qed.

Lemma gen_loop_spec count codes draws res :
  gen_loop count codes draws = Some res -> NoDup codes ->
  Z.of_nat (length codes) <= Z.max 0 count ->
  NoDup res /\ Z.of_nat (length res) = Z.max 0 count.
Proof.
  revert codes. induction draws as [|k ds IH]; intros codes H Hnd Hlen; simpl in H.
  - destruct (Z.ltb_spec (Z.of_nat (length codes)) count); [discriminate|].
    injection H as <-. split; [exact Hnd | lia].
  - destruct (Z.ltb_spec (Z.of_nat (length codes)) count).
    + apply (IH _ H).
      * apply set_add_NoDup. exact Hnd.
      * pose proof (set_add_length codes (generateExamCode k)). lia.
    + injection H as <-. split; [exact Hnd | lia].
Qed.

(* ------------------------------------------------------------------ *)
(** ** Monotonicity of rounding *)

Lemma rnd_mono e a b : 1 <= e -> 0 <= a <= b -> rnd e a <= rnd e b.
Proof.
  intros He Hab. unfold rnd.
  assert (Hp : 0 < 2 ^ e) by (apply Z.pow_pos_nonneg; lia).
  pose proof (Z.div_le_mono a b (2 ^ e) Hp ltac:(lia)) as Hq.
  pose proof (Z.div_mod a (2 ^ e) ltac:(lia)) as Ha.
  pose proof (Z.div_mod b (2 ^ e) ltac:(lia)) as Hb.
  pose proof (Z.mod_pos_bound a (2 ^ e) Hp) as Hra.
  pose proof (Z.mod_pos_bound b (2 ^ e) Hp) as Hrb.
  set (qa := a / 2 ^ e) in *. set (qb := b / 2 ^ e) in *.
  set (ra := a mod 2 ^ e) in *. set (rb := b mod 2 ^ e) in *.
  set (h := 2 ^ (e - 1)).
  destruct (Z.eq_dec qa qb) as [Eq|Nq].
  - assert (ra <= rb) by nia.
    destruct ((h <? ra) || ((ra =? h) && Z.odd qa)) eqn:Ca;
    destruct ((h <? rb) || ((rb =? h) && Z.odd qb)) eqn:Cb; try nia.
    exfalso.
    apply orb_false_iff in Cb as [Cb1 Cb2]. apply Z.ltb_ge in Cb1.
    apply orb_true_iff in Ca as [Ca|Ca].
    + apply Z.ltb_lt in Ca. lia.
    + apply andb_true_iff in Ca as [Ca1 Ca2]. apply Z.eqb_eq in Ca1.
      assert (rb = h) as Erb by lia.
      rewrite Erb, Z.eqb_refl, <- Eq, Ca2 in Cb2. discriminate.
  - assert (qa + 1 <= qb) by lia.
    destruct (_ || _); destruct (_ || _); nia.
Qed.

Lemma rnd_range e a :
  1 <= e -> 2 ^ (e + 52) <= a < 2 ^ (e + 53) ->
  2 ^ (e + 52) <= rnd e a <= 2 ^ (e + 53).
Proof.
  intros He Ha. rewrite !Z.pow_add_r in Ha |- * by lia.
  assert (Hp : 0 < 2 ^ e) by (apply Z.pow_pos_nonneg; lia).
  assert (2 ^ 52 <= a / 2 ^ e) by (apply Z.div_le_lower_bound; lia).
  assert (a / 2 ^ e < 2 ^ 53) by (apply Z.div_lt_upper_bound; lia).
  unfold rnd. destruct (_ || _); nia.
Qed.

Lemma fl_small x : 0 <= x -> Z.log2 x - 52 <= 0 -> fl x = x /\ x < 2 ^ 53.
Proof.
  intros Hx He.
  assert (x < 2 ^ 53).
  { destruct (Z.eq_dec x 0) as [->|]; [lia|]. apply Z.log2_lt_pow2; lia. }
  split; [apply fl_exact; rewrite Z.abs_eq; lia | exact H].
Qed.

Lemma fl_big x :
  0 <= x -> 0 < Z.log2 x - 52 -> 2 ^ Z.log2 x <= fl x <= 2 ^ (Z.log2 x + 1).
Proof.
  intros Hx He. rewrite fl_pos_rnd by lia.
  assert (0 < x) by (destruct (Z.eq_dec x 0) as [->|]; [simpl in He; lia | lia]).
  pose proof (Z.log2_spec x H) as [Hl Hu].
  pose proof (rnd_range (Z.log2 x - 52) x ltac:(lia)) as Hr.
  replace (Z.log2 x - 52 + 52) with (Z.log2 x) in Hr by lia.
  replace (Z.log2 x - 52 + 53) with (Z.log2 x + 1) in Hr by lia.
  apply Hr. rewrite <- Z.add_1_r in Hu. lia.
Qed.

Lemma fl_mono x y : 0 <= x <= y -> fl x <= fl y.
Proof.
  intros Hxy.
  assert (Hl : Z.log2 x <= Z.log2 y) by (apply Z.log2_le_mono; lia).
  destruct (Z.leb_spec (Z.log2 y - 52) 0) as [Hy|Hy].
  - destruct (fl_small x ltac:(lia) ltac:(lia)) as [-> _].
    destruct (fl_small y ltac:(lia) ltac:(lia)) as [-> _]. lia.
  - pose proof (fl_big y ltac:(lia) Hy) as [Hy1 _].
    destruct (Z.leb_spec (Z.log2 x - 52) 0) as [Hx|Hx].
    + destruct (fl_small x ltac:(lia) Hx) as [-> Hx2].
      assert (2 ^ 53 <= 2 ^ Z.log2 y) by (apply Z.pow_le_mono_r; lia). lia.
    + destruct (Z.eq_dec (Z.log2 x) (Z.log2 y)) as [E|N].
      * rewrite !fl_pos_rnd by lia. rewrite E. apply rnd_mono; lia.
      * pose proof (fl_big x ltac:(lia) Hx) as [_ Hx2].
        assert (2 ^ (Z.log2 x + 1) <= 2 ^ Z.log2 y) by (apply Z.pow_le_mono_r; lia).
        lia.
Qed.

Example shuffle_small : elems (shuffleArray [1;2;3;4]%nat 42) = [Some 3; Some 4; Some 1; Some 2]%nat.
Proof. vm_compute. reflexivity. Qed.

(* ------------------------------------------------------------------ *)
(** ** Exam code space *)

Lemma generateExamCode_floor k :
  0 <= k < 2 ^ 53 -> 100 <= fl (100 * 2 ^ 53 + fl (900 * k)) / 2 ^ 53 <= 999.
Proof.
  intros Hk. pose proof (fl_nonneg (900 * k) ltac:(lia)) as H0.
  split.
  - apply Z.div_le_lower_bound; [lia|].
    assert (fl (100 * 2 ^ 53) = 100 * 2 ^ 53) as E by (vm_compute; reflexivity).
    assert (fl (100 * 2 ^ 53) <= fl (100 * 2 ^ 53 + fl (900 * k))) by (apply fl_mono; lia).
    lia.
  - assert (fl (900 * k) <= fl (900 * (2 ^ 53 - 1))) by (apply fl_mono; lia).
    assert (fl (100 * 2 ^ 53 + fl (900 * k))
            <= fl (100 * 2 ^ 53 + fl (900 * (2 ^ 53 - 1)))) by (apply fl_mono; lia).
    assert (fl (100 * 2 ^ 53 + fl (900 * (2 ^ 53 - 1))) = 1000 * 2 ^ 53 - 1024)
      by (vm_compute; reflexivity).
    assert (fl (100 * 2 ^ 53 + fl (900 * k)) / 2 ^ 53 < 1000); [|lia].
    apply Z.div_lt_upper_bound; lia.
Qed.

Lemma exam_code_space_length3 : Forall (fun s => String.length s = 3%nat) exam_code_space.
Proof.
  apply Forall_forall. intros s Hs.
  assert (forallb (fun s => Nat.eqb (String.length s) 3) exam_code_space = true) as Hb
    by (vm_compute; reflexivity).
  rewrite forallb_forall in Hb. apply Nat.eqb_eq. apply Hb. apply list_elem_of_In. exact Hs.
Qed.

Lemma exam_code_space_NoDup : NoDup exam_code_space.
Proof. apply (bool_decide_eq_true (NoDup exam_code_space)). vm_compute. reflexivity. Qed.

Lemma draw_for_spec i :
  (i < 900)%nat ->
  (0 <= draw_for i < 2 ^ 53) /\
  generateExamCode (draw_for i) = number_toString (100 + Z.of_nat i).
Proof.
  intros Hi.
  assert (forallb (fun i => (0 <=? draw_for i) && (draw_for i <? 2 ^ 53) &&
             String.eqb (generateExamCode (draw_for i)) (number_toString (100 + Z.of_nat i)))
            (seq 0 900) = true) as Hb by (vm_compute; reflexivity).
  rewrite forallb_forall in Hb.
  specialize (Hb i ltac:(apply in_seq; lia)).
  apply andb_true_iff in Hb as [Hb Hs]. apply andb_true_iff in Hb as [H1 H2].
  apply Z.leb_le in H1. apply Z.ltb_lt in H2. apply String.eqb_eq in Hs. split; [lia | exact Hs].
Qed.

Lemma number_toString_in_space n :
  100 <= n <= 999 -> number_toString n ∈ exam_code_space.
Proof.
  intros Hn. apply elem_of_list_map. exists (Z.to_nat (n - 100)). split.
  - f_equal. lia.
  - apply list_elem_of_In, in_seq. lia.
Qed.

Lemma generateExamCode_in_space k :
  0 <= k < 2 ^ 53 -> generateExamCode k ∈ exam_code_space.
Proof.
  intros Hk. unfold generateExamCode.
  apply number_toString_in_space, generateExamCode_floor. exact Hk.
Qed.

Lemma gen_loop_stuck count codes draws :
  900 < count -> Forall (fun k => 0 <= k < 2 ^ 53) draws ->
  NoDup codes -> (forall c, c ∈ codes -> c ∈ exam_code_space) ->
  gen_loop count codes draws = None.
Proof.
  intros Hc Hd. revert codes. induction Hd as [|k ds Hk Hds IH]; intros codes Hnd Hin; simpl.
  - assert (length codes <= length exam_code_space)%nat.
    { apply submseteq_length, NoDup_submseteq; assumption. }
    assert (length exam_code_space = 900%nat) by reflexivity.
    destruct (Z.ltb_spec (Z.of_nat (length codes)) count); [reflexivity | lia].
  - assert (length codes <= length exam_code_space)%nat.
    { apply submseteq_length, NoDup_submseteq; assumption. }
    assert (length exam_code_space = 900%nat) by reflexivity.
    destruct (Z.ltb_spec (Z.of_nat (length codes)) count); [|lia].
    apply IH.
    + apply set_add_NoDup. exact Hnd.
    + intros c Hc'. apply set_add_elem in Hc' as [Hc'| ->]; [apply Hin; exact Hc'|].
      apply generateExamCode_in_space. exact Hk.
Qed.

(* ------------------------------------------------------------------ *)
(** ** Shape of the variants *)

Lemma mixQuestion_fields (q : Question) p seed mq :
  mixQuestion (Some q) p seed = Some mq ->
  originalNumber mq = Store.number q /\ displayNumber mq = Z.of_nat p + 1 /\
  stem mq = Store.stem q /\
  exists rs m, shuffleOptions (Store.options q) (seed + Z.of_nat p) = Some (rs, m) /\
    options mq = rs /\
    correctAnswer mq = or_default (map_get m (Store.correct_label q)) (Store.correct_label q).
Proof.
  unfold mixQuestion. destruct (shuffleOptions _ _) as [[rs m]|]; [|discriminate].
  intros H. injection H as <-. simpl.
  split; [reflexivity|]. split; [reflexivity|]. split; [reflexivity|].
  exists rs, m. split; [reflexivity|]. split; reflexivity.
Qed.

(** Each question of a produced variant comes from a source question,
    mixed at its position with a nonnegative seed. *)
Lemma mixExam_question_origin now draws (doc : ParsedDoc) V vs e mq :
  (forall v, 0 <= now v) -> mixExam now draws doc V = inr vs ->
  e ∈ vs -> mq ∈ questions e ->
  exists q p seed, q ∈ Store.questions doc /\ 0 <= seed /\
    mixQuestion (Some q) p seed = Some mq.
Proof.
  intros Hnow Hmix He Hmq. unfold mixExam in Hmix.
  destruct (generateExamCodes V draws) as [codes|]; [|discriminate].
  destruct (variants_loop_spec now doc codes 0 _ vs Hmix) as [_ Hp].
  apply list_elem_of_lookup in He as [pv He].
  destruct (Hp pv e He) as [_ Hmv].
  set (seed := now (0 + pv)%nat + Z.of_nat (0 + pv) * 1000) in Hmv.
  assert (Hs : 0 <= seed) by (unfold seed; pose proof (Hnow (0 + pv)%nat); lia).
  destruct (mixVariant_spec doc seed (questions e) Hs Hmv) as [_ Hq].
  apply list_elem_of_lookup in Hmq as [p Hmq].
  destruct (Hq p mq Hmq) as (q & Hin & Hm).
  exists q, p, seed. auto.
Qed.

Lemma find_displayNumber (l : list MixedQuestion) off k :
  (forall p mq, l !! p = Some mq -> displayNumber mq = Z.of_nat (off + p) + 1) ->
  (k < length l)%nat ->
  List.find (fun q => Z.eqb (displayNumber q) (Z.of_nat (off + k) + 1)) l = l !! k.
Proof.
  revert off k. induction l as [|mq l IH]; intros off k Hd Hk; simpl in Hk; [lia|].
  cbn [List.find]. pose proof (Hd 0%nat mq eq_refl) as H0.
  destruct k as [|k].
  - rewrite H0. rewrite Z.eqb_refl. reflexivity.
  - rewrite H0. replace (Z.of_nat (off + 0) + 1 =? Z.of_nat (off + S k) + 1) with false
      by (symmetry; apply Z.eqb_neq; lia).
    simpl. replace (off + S k)%nat with (S off + k)%nat by lia.
    apply IH; [|lia]. intros p mq' Hp.
    replace (S off + p)%nat with (off + S p)%nat by lia. apply (Hd (S p)). exact Hp.
Qed.

Lemma Forall2_map_r_intro {A B} (P : A -> B -> Prop) (f : A -> B) (l : list A) :
  (forall x, x ∈ l -> P x (f x)) -> Forall2 P l (map f l).
Proof.
  induction l as [|x l IH]; intros H; constructor.
  - apply H. left.
  - apply IH. intros y Hy. apply H. right. exact Hy.
Qed.

Lemma NoDup_map_Some {A} (l : list A) : NoDup l -> NoDup (map Some l).
Proof.
  induction 1 as [|x l Hx Hnd IH]; simpl; constructor; [|exact IH].
  intros Hin. apply elem_of_list_map in Hin as (y & Hy & Hin).
  injection Hy as ->. contradiction.
Qed.

Lemma labels_nonempty i s : labels !! i = Some s -> s ∈ labels /\ s <> "".
Proof.
  intros H. split; [apply list_elem_of_lookup; exists i; exact H|].
  destruct i as [|[|[|[|[|[|i]]]]]]; simpl in H; try discriminate;
    injection H as <-; discriminate.
Qed.

(* ================================================================== *)
(** * Claims *)

(** ** C1 *)

(** C1 (as stated, refuted): a question whose correct label matches no
    option does not make [mixExam] fail: the run returns its variant,
    with the unmatched label copied as the correct answer. *)
Lemma C1_counterexample :
  exists vs, mixExam (fun _ => 0) [0] doc_bad_label 1 = inr vs /\ length vs = 1%nat /\
    exists e mq, e ∈ vs /\ mq ∈ questions e /\ correctAnswer mq = "Z".
Proof.
  eexists. split; [cbv; reflexivity|]. split; [reflexivity|].
  eexists _, _. split; [left|]. split; [left|]. reflexivity.
Qed.

(** C1 (amended): [mixExam] raises no error for unmatched correct labels.
    With nonnegative clock readings, once the exam codes are allocated the
    run returns [V] variants, and every mixed question whose source
    correct label matches none of that question's option labels carries
    that source label unchanged as its correct answer. *)
Theorem mixExam_unmatched_correct_label now draws (doc : ParsedDoc) V codes :
  (forall v, 0 <= now v) -> generateExamCodes V draws = Some codes ->
  exists vs, mixExam now draws doc V = inr vs /\ length vs = Z.to_nat V /\
    forall e, e ∈ vs -> forall mq, mq ∈ questions e ->
      exists q, q ∈ Store.questions doc /\ originalNumber mq = Store.number q /\
        (Store.correct_label q ∉ map Store.label (Store.options q) ->
         correctAnswer mq = Store.correct_label q).
Proof.
  intros Hnow Hgen.
  destruct (variants_loop_defined now doc codes 0 (Z.to_nat V) Hnow) as [vs Hvs].
  assert (Hmix : mixExam now draws doc V = inr vs) by (unfold mixExam; rewrite Hgen; exact Hvs).
  exists vs. split; [exact Hmix|]. split; [apply (variants_loop_spec _ _ _ _ _ _ Hvs)|].
  intros e He mq Hmq.
  destruct (mixExam_question_origin now draws doc V vs e mq Hnow Hmix He Hmq)
    as (q & p & seed & Hin & Hs & Hm).
  exists q. split; [exact Hin|].
  destruct (mixQuestion_fields q p seed mq Hm) as (Hon & _ & _ & rs & m & Hso & _ & Hca).
  split; [exact Hon|]. intros Hn.
  destruct (shuffleOptions_defined (Store.options q) (seed + Z.of_nat p) ltac:(lia))
    as (ys & rs' & m' & _ & _ & Hso' & _ & _ & _ & _ & _ & Hnone).
  rewrite Hso in Hso'. injection Hso' as <- <-.
  rewrite Hca, Hnone by exact Hn. reflexivity.
Qed.

Lemma mixExam_unmatched_correct_label_witness :
  exists vs, mixExam (fun _ => 0) [0] doc_bad_label 1 = inr vs.
Proof.
  destruct (mixExam_unmatched_correct_label (fun _ => 0) [0] doc_bad_label 1 ["100"])
    as (vs & H & _).
  - intros v. lia.
  - vm_compute. reflexivity.
  - exists vs. exact H.
Defined.

(** ** C4 *)

(** C4 (as stated, refuted): [numVariants = 0] is not rejected; the run
    succeeds with an empty list. *)
Lemma C4_counterexample :
  mixExam (fun _ => 0) [] doc_two 0 = inr [] /\
  forall err, mixExam (fun _ => 0) [] doc_two 0 <> inl err.
Proof. split; [reflexivity|]. intros err H. discriminate H. Qed.

(** C4 (amended): for every variant count [V <= 0], [mixExam] raises no
    error and returns the empty list of variants, without drawing any
    exam code. *)
Theorem mixExam_nonpositive_variants now draws (doc : ParsedDoc) V :
  V <= 0 -> mixExam now draws doc V = inr [].
Proof.
  intros HV. unfold mixExam, generateExamCodes.
  assert (gen_loop V [] draws = Some []) as ->.
  { destruct draws; simpl; destruct (Z.ltb_spec (Z.of_nat 0) V); lia || reflexivity. }
  replace (Z.to_nat V) with 0%nat by lia. reflexivity.
Qed.

Lemma mixExam_nonpositive_variants_witness :
  mixExam (fun _ => 0) [] doc_two (-3) = inr [].
Proof. apply mixExam_nonpositive_variants. lia. Defined.

(** ** C7 *)

(** C7 (as stated, refuted): with the same document, variant count and
    seeds (the same clock readings), two runs differ when [Math.random]
    draws differ: the exam codes are not derived from the seeds. *)
Lemma C7_counterexample :
  mixExam (fun _ => 1700000000000) [0] doc_two 1 <>
  mixExam (fun _ => 1700000000000) [2 ^ 52] doc_two 1.
Proof. vm_compute. intros H. discriminate H. Qed.

(** C7 (amended): the question content of variant [v] is fixed by the
    document and the seed [Date.now() + 1000 v] alone: two successful runs
    with the same document, count and clock readings have identical
    question lists in every variant, whatever the [Math.random] draws that
    choose the exam codes. *)
Theorem mixExam_questions_determined now draws1 draws2 (doc : ParsedDoc) V vs1 vs2 :
  mixExam now draws1 doc V = inr vs1 -> mixExam now draws2 doc V = inr vs2 ->
  map questions vs1 = map questions vs2 /\
  forall p e, vs1 !! p = Some e ->
    mixVariant doc (now p + Z.of_nat p * 1000) = Some (questions e).
Proof.
  unfold mixExam. intros H1 H2.
  destruct (generateExamCodes V draws1) as [c1|]; [|discriminate].
  destruct (generateExamCodes V draws2) as [c2|]; [|discriminate].
  destruct (variants_loop_spec now doc c1 0 _ vs1 H1) as [L1 P1].
  destruct (variants_loop_spec now doc c2 0 _ vs2 H2) as [L2 P2].
  split.
  - apply list_eq. intros p. rewrite !list_lookup_fmap.
    destruct (vs1 !! p) as [e1|] eqn:E1; destruct (vs2 !! p) as [e2|] eqn:E2; simpl.
    + destruct (P1 p e1 E1) as [_ M1]. destruct (P2 p e2 E2) as [_ M2].
      rewrite M1 in M2. injection M2 as ->. reflexivity.
    + apply lookup_lt_Some in E1. apply lookup_ge_None in E2. lia.
    + apply lookup_lt_Some in E2. apply lookup_ge_None in E1. lia.
    + reflexivity.
  - intros p e He. apply (P1 p e He).
Qed.

Lemma mixExam_questions_determined_witness :
  map questions (match mixExam (fun _ => 1700000000000) [0] doc_two 1 with inr vs => vs | inl _ => [] end) =
  map questions (match mixExam (fun _ => 1700000000000) [2 ^ 52] doc_two 1 with inr vs => vs | inl _ => [] end).
Proof.
  apply (mixExam_questions_determined (fun _ => 1700000000000) [0] [2 ^ 52] doc_two 1);
    vm_compute; reflexivity.
Defined.

(** ** C9 *)

(** C9: the codes [generateExamCodes] returns are pairwise distinct and
    there are [count] of them (none for [count <= 0]); [mixExam] hands the
    [v]-th of them to variant [v], so the variants' exam codes are defined
    and pairwise distinct. *)
Theorem generateExamCodes_distinct count draws codes now (doc : ParsedDoc) vs :
  generateExamCodes count draws = Some codes ->
  NoDup codes /\ Z.of_nat (length codes) = Z.max 0 count /\
  (mixExam now draws doc count = inr vs ->
   map examCode vs = map Some codes /\ NoDup (map examCode vs)).
Proof.
  intros Hg.
  destruct (gen_loop_spec count [] draws codes Hg (NoDup_nil_2) ltac:(simpl; lia)) as [Hnd Hlen].
  split; [exact Hnd|]. split; [exact Hlen|].
  intros Hm. unfold mixExam in Hm. rewrite Hg in Hm.
  destruct (variants_loop_spec now doc codes 0 _ vs Hm) as [Lv Pv].
  assert (Heq : map examCode vs = map Some codes).
  { apply list_eq. intros p. rewrite !list_lookup_fmap.
    destruct (vs !! p) as [e|] eqn:E; simpl.
    - destruct (Pv p e E) as [Hc _]. rewrite Hc. simpl.
      apply lookup_lt_Some in E.
      destruct (codes !! p) as [c|] eqn:Ec; [reflexivity|].
      apply lookup_ge_None in Ec. lia.
    - apply lookup_ge_None in E.
      destruct (codes !! p) as [c|] eqn:Ec; [|reflexivity].
      apply lookup_lt_Some in Ec. lia. }
  split; [exact Heq|]. rewrite Heq. apply NoDup_map_Some. exact Hnd.
Qed.

Lemma generateExamCodes_distinct_witness :
  NoDup ["100"; "550"] /\ Z.of_nat (length ["100"; "550"]) = Z.max 0 2.
Proof.
  destruct (generateExamCodes_distinct 2 [0; 2 ^ 52] ["100"; "550"] (fun _ => 0) doc_two [])
    as (H1 & H2 & _).
  - vm_compute. reflexivity.
  - split; [exact H1 | exact H2].
Defined.

(** ** C5 *)

(** A MixedOption of a remapped question with at most six options
    carries one of the letters A-F. *)
Lemma remapped_label_defined (opts : list OptionItem) seed rs m mo :
  0 <= seed -> (length opts <= 6)%nat ->
  shuffleOptions opts seed = Some (rs, m) -> mo ∈ rs ->
  exists s, label mo = Some s /\ s ∈ labels /\ s <> "".
Proof.
  intros Hs H6 Hso Hmo.
  destruct (shuffleOptions_defined opts seed Hs)
    as (ys & rs' & m' & _ & _ & Hso' & _ & _ & Hl & _).
  rewrite Hso in Hso'. injection Hso' as <- <-.
  assert (Hin : label mo ∈ map label rs) by (apply elem_of_list_map; exists mo; split; [reflexivity | exact Hmo]).
  rewrite Hl in Hin. apply elem_of_list_map in Hin as (i & Hi & Hseq).
  apply elem_of_seq in Hseq.
  destruct (lookup_lt_is_Some_2 labels i ltac:(simpl; lia)) as [s Hs'].
  exists s. rewrite <- Hi, Hs'. split; [reflexivity|].
  apply (labels_nonempty i s Hs').
Qed.

(** C5: when every source question has at most six options and exactly
    one option labelled with its correct label, each mixed question of
    each variant has exactly one MixedOption whose originalLabel is the
    source correct label, and that option's new label is the question's
    correctAnswer. *)
Theorem mixExam_correctAnswer_relocated now draws (doc : ParsedDoc) V vs :
  (forall v, 0 <= now v) ->
  (forall q, q ∈ Store.questions doc ->
     (length (Store.options q) <= 6)%nat /\
     length (filter (fun o => Store.label o = Store.correct_label q) (Store.options q)) = 1%nat) ->
  mixExam now draws doc V = inr vs ->
  forall e, e ∈ vs -> forall mq, mq ∈ questions e ->
    exists q, q ∈ Store.questions doc /\ originalNumber mq = Store.number q /\
      exists mo, mo ∈ options mq /\ originalLabel mo = Store.correct_label q /\
        label mo = Some (correctAnswer mq) /\
        (forall mo', mo' ∈ options mq -> originalLabel mo' = Store.correct_label q -> mo' = mo).
Proof.
  intros Hnow Hdoc Hmix e He mq Hmq.
  destruct (mixExam_question_origin now draws doc V vs e mq Hnow Hmix He Hmq)
    as (q & p & seed & Hin & Hs & Hm).
  exists q. split; [exact Hin|].
  destruct (mixQuestion_fields q p seed mq Hm) as (Hon & _ & _ & rs & m & Hso & Hopt & Hca).
  split; [exact Hon|].
  destruct (Hdoc q Hin) as [H6 H1].
  destruct (shuffleOptions_defined (Store.options q) (seed + Z.of_nat p) ltac:(lia))
    as (ys & rs' & m' & Hsh & Hp & Hso' & _).
  rewrite Hso in Hso'. injection Hso' as <- <-.
  assert (Hremap : remap_loop 0 (map Some ys) [] = Some (rs, m)).
  { unfold shuffleOptions in Hso. rewrite Hsh in Hso. exact Hso. }
  assert (Hf : length (filter (fun o => Store.label o = Store.correct_label q) ys) = 1%nat).
  { assert (filter (fun o => Store.label o = Store.correct_label q) ys ≡ₚ
            filter (fun o => Store.label o = Store.correct_label q) (Store.options q)) as Hfp
      by (rewrite Hp; reflexivity).
    rewrite (Permutation_length Hfp). exact H1. }
  destruct (remap_loop_get_unique ys 0 [] rs m _ Hremap Hf)
    as (mo & Hmo & Hk & Hget & Huniq).
  destruct (remapped_label_defined (Store.options q) (seed + Z.of_nat p) rs m mo
              ltac:(lia) H6 Hso Hmo) as (s & Hlab & _ & Hne).
  exists mo. rewrite Hopt. split; [exact Hmo|]. split; [exact Hk|]. split.
  - rewrite Hlab, Hca, Hget, Hlab. unfold or_default.
    destruct (String.eqb s "") eqn:E; [apply String.eqb_eq in E; contradiction | reflexivity].
  - exact Huniq.
Qed.

Lemma mixExam_correctAnswer_relocated_witness :
  exists vs, mixExam (fun _ => 1700000000000) [0; 2 ^ 52] doc_two 2 = inr vs /\
  forall e, e ∈ vs -> forall mq, mq ∈ questions e ->
    exists q, q ∈ Store.questions doc_two /\ originalNumber mq = Store.number q /\
      exists mo, mo ∈ options mq /\ originalLabel mo = Store.correct_label q /\
        label mo = Some (correctAnswer mq) /\
        (forall mo', mo' ∈ options mq -> originalLabel mo' = Store.correct_label q -> mo' = mo).
Proof.
  eexists. split; [cbv; reflexivity|].
  apply (mixExam_correctAnswer_relocated (fun _ => 1700000000000) [0; 2 ^ 52] doc_two 2).
  - intros v. lia.
  - intros q Hq. repeat (apply elem_of_cons in Hq as [->|Hq]);
      [vm_compute; split; [lia | reflexivity] .. | apply elem_of_nil in Hq; contradiction].
  - cbv. reflexivity.
Defined.

(** C5 (as stated, refuted): with seven options the correct option can
    land at position 6, past the six-letter table: its new label is
    [undefined] while [correctAnswer] falls back to the source label. *)
Lemma C5_counterexample :
  exists vs e mq mo,
    mixExam (fun _ => 0) [0] doc_seven 1 = inr vs /\ e ∈ vs /\ mq ∈ questions e /\
    mo ∈ options mq /\ originalLabel mo = "B" /\
    label mo = None /\ correctAnswer mq = "B".
Proof.
  eexists _, _, _, _. split; [cbv; reflexivity|].
  split; [left|]. split; [left|]. split.
  - do 6 right. left.
  - split; [|split]; reflexivity.
Qed.

(** ** C6 *)

(** C6 (as stated, refuted): seven options do not make the remapper
    fail; the option at position 6 gets an [undefined] label. *)
Lemma C6_counterexample :
  exists rs m,
    shuffleOptions (map sample_option ["A"; "B"; "C"; "D"; "E"; "F"; "G"]) 0 = Some (rs, m) /\
    None ∈ map label rs.
Proof.
  eexists _, _. split; [cbv; reflexivity|]. do 6 right. left.
Qed.

(** C6 (amended): for a nonnegative seed, [shuffleOptions] never fails,
    whatever the option count: the MixedOptions carry the original labels
    in shuffled order, position [idx] receives [labels[idx]] (undefined
    from position 6 on), with at most six options every option receives
    one of A-F, and the mapping has each distinct original label exactly
    once as a key. *)
Theorem shuffleOptions_remap (opts : list OptionItem) seed :
  0 <= seed ->
  exists rs m, shuffleOptions opts seed = Some (rs, m) /\
    map originalLabel rs ≡ₚ map Store.label opts /\
    map label rs = map (fun i => labels !! i) (seq 0 (length opts)) /\
    ((length opts <= 6)%nat -> forall mo, mo ∈ rs -> exists s, label mo = Some s /\ s ∈ labels) /\
    NoDup (map fst m) /\
    (forall k, k ∈ map fst m <-> k ∈ map Store.label opts).
Proof.
  intros Hs.
  destruct (shuffleOptions_defined opts seed Hs)
    as (ys & rs & m & _ & Hp & Hso & Hol & _ & Hl & Hnd & Hk & _).
  exists rs, m. split; [exact Hso|]. split.
  { rewrite Hol. apply Permutation_map. exact Hp. }
  split; [exact Hl|]. split.
  { intros H6 mo Hmo.
    destruct (remapped_label_defined opts seed rs m mo Hs H6 Hso Hmo) as (s & H1 & H2 & _).
    exists s. split; assumption. }
  split; [exact Hnd | exact Hk].
Qed.

Lemma shuffleOptions_remap_witness :
  exists rs m, shuffleOptions (map sample_option abcd) 5 = Some (rs, m) /\ NoDup (map fst m).
Proof.
  destruct (shuffleOptions_remap (map sample_option abcd) 5 ltac:(lia))
    as (rs & m & H & _ & _ & _ & Hnd & _).
  exists rs, m. split; [exact H | exact Hnd].
Defined.

(** ** C2 *)

(** C2 (as stated, refuted): the table looks variant questions up by
    [displayNumber], not by [originalNumber]. In the first variant of this
    run source question 1 is printed second with answer D, yet row 1 shows
    B, the answer of the question printed first. *)
Lemma C2_counterexample :
  exists vs, mixExam (fun _ => 1700000000000) [0; 2 ^ 52] doc_two 2 = inr vs /\
    length (AnswerKeyTable vs (map Store.correct_label (Store.questions doc_two))) = 2%nat /\
    map row_cells (AnswerKeyTable vs (map Store.correct_label (Store.questions doc_two)))
      = [["B"; "C"]; ["D"; "B"]] /\
    map (fun qn => map (spec_answer_cell qn) vs) [1; 2] = [["D"; "C"]; ["B"; "B"]].
Proof.
  eexists. split; [cbv; reflexivity|]. split; [|split]; vm_compute; reflexivity.
Qed.

Lemma variant_shape now draws (doc : ParsedDoc) V vs e :
  (forall v, 0 <= now v) -> mixExam now draws doc V = inr vs -> e ∈ vs ->
  length (questions e) = length (Store.questions doc) /\
  forall p mq, questions e !! p = Some mq -> displayNumber mq = Z.of_nat p + 1.
Proof.
  intros Hnow Hmix He. unfold mixExam in Hmix.
  destruct (generateExamCodes V draws) as [codes|]; [|discriminate].
  destruct (variants_loop_spec now doc codes 0 _ vs Hmix) as [_ Hp].
  apply list_elem_of_lookup in He as [pv He].
  destruct (Hp pv e He) as [_ Hmv].
  assert (Hs : 0 <= now (0 + pv)%nat + Z.of_nat (0 + pv) * 1000)
    by (pose proof (Hnow (0 + pv)%nat); lia).
  destruct (mixVariant_spec doc _ (questions e) Hs Hmv) as [Hl Hq].
  split; [exact Hl|]. intros p mq Hmq.
  destruct (Hq p mq Hmq) as (q & _ & Hm).
  apply (mixQuestion_fields q p _ mq Hm).
Qed.

(** C2 (amended): for the variants of a run with [V >= 1] and the source
    correct labels, the table has one row per source question; row [k]
    (numbered [k + 1]) shows the source correct label of question [k + 1]
    and, for each variant, the correctAnswer of the question that variant
    prints at position [k + 1] (its [displayNumber]), "-" when empty. *)
Theorem AnswerKeyTable_by_display_position now draws (doc : ParsedDoc) V vs :
  (forall v, 0 <= now v) -> 1 <= V -> mixExam now draws doc V = inr vs ->
  length (AnswerKeyTable vs (map Store.correct_label (Store.questions doc)))
    = length (Store.questions doc) /\
  forall k row,
    AnswerKeyTable vs (map Store.correct_label (Store.questions doc)) !! k = Some row ->
    row_number row = Z.of_nat k + 1 /\
    (exists q, Store.questions doc !! k = Some q /\
               row_original row = or_dash (Store.correct_label q)) /\
    Forall2 (fun e c => exists mq, questions e !! k = Some mq /\
               displayNumber mq = Z.of_nat k + 1 /\ c = or_dash (correctAnswer mq))
            vs (row_cells row).
Proof.
  intros Hnow HV Hmix.
  assert (Hlen : length vs = Z.to_nat V).
  { unfold mixExam in Hmix. destruct (generateExamCodes V draws); [|discriminate].
    apply (variants_loop_spec _ _ _ _ _ _ Hmix). }
  destruct vs as [|e0 vs']; [simpl in Hlen; lia|].
  destruct (variant_shape now draws doc V (e0 :: vs') e0 Hnow Hmix ltac:(left)) as [Hl0 _].
  unfold AnswerKeyTable. rewrite Hl0. split.
  { rewrite length_map, length_seq. reflexivity. }
  intros k row Hrow. rewrite list_lookup_fmap in Hrow.
  destruct (seq 0 (length (Store.questions doc)) !! k) as [i|] eqn:Ek; [|discriminate].
  apply lookup_seq in Ek as [-> Hk]. simpl in Hrow. injection Hrow as <-. simpl.
  split; [reflexivity|]. split.
  { destruct (lookup_lt_is_Some_2 (Store.questions doc) k Hk) as [q Hq].
    exists q. split; [exact Hq|]. rewrite list_lookup_fmap, Hq. reflexivity. }
  apply (Forall2_map_r_intro _ (answer_cell (Z.of_nat k + 1)) (e0 :: vs')). intros e He.
  destruct (variant_shape now draws doc V (e0 :: vs') e Hnow Hmix He) as [Hl Hd].
  destruct (lookup_lt_is_Some_2 (questions e) k ltac:(lia)) as [mq Hmq].
  exists mq. split; [exact Hmq|]. split; [apply (Hd k mq Hmq)|].
  unfold answer_cell.
  pose proof (find_displayNumber (questions e) 0 k) as Hf. simpl in Hf.
  rewrite Hf; [rewrite Hmq; reflexivity| |lia].
  intros p mq' Hp. apply (Hd p mq' Hp).
Qed.

Lemma AnswerKeyTable_by_display_position_witness :
  length (AnswerKeyTable
            (match mixExam (fun _ => 1700000000000) [0; 2 ^ 52] doc_two 2 with
             | inr vs => vs | inl _ => [] end)
            (map Store.correct_label (Store.questions doc_two))) = 2%nat.
Proof.
  apply (AnswerKeyTable_by_display_position (fun _ => 1700000000000) [0; 2 ^ 52] doc_two 2).
  - intros v. lia.
  - lia.
  - cbv. reflexivity.
Defined.

(** ** C3 *)

(** C3 (code bug): for a negative seed JavaScript's [%] keeps the sign,
    [rng()] returns a negative value and [j] becomes [-1]: the swap moves
    an element into the plain property ["-1"] and leaves [undefined] at
    its index. [shuffleArray([1, 2], -1000)] is [[1, undefined]], not a
    permutation of [[1, 2]]; [shuffleArray([1, 2, 3], -1000)] is
    [[1, 3, undefined]], with 2 in the property ["-1"]. *)
Lemma C3_counterexample :
  elems (shuffleArray [1; 2]%nat (-1000)) = [Some 1; None]%nat /\
  ~ (elems (shuffleArray [1; 2]%nat (-1000)) ≡ₚ map Some [1; 2]%nat) /\
  elems (shuffleArray [1; 2; 3]%nat (-1000)) = [Some 1; Some 3; None]%nat /\
  js_get (shuffleArray [1; 2; 3]%nat (-1000)) (-1) = Some 2%nat.
Proof.
  split; [vm_compute; reflexivity|]. split.
  - vm_compute. intros H.
    assert (In None [Some 1; Some 2]%nat) as Hin.
    { apply (Permutation_in None H). right. left. reflexivity. }
    simpl in Hin. destruct Hin as [Hin|[Hin|[]]]; discriminate.
  - split; vm_compute; reflexivity.
Qed.

(** ** C8 *)

(** C8 (code bug): the code computes
    [(state * 1664525 + 1013904223) % 2 ** 32] in doubles with a truncated
    remainder, not the linear congruential step [(state * A + C) mod 2^32].
    For the seed -1000 the first state is -650620777 and the value
    returned is negative; for a clock-sized seed such as 1700000000000 the
    product exceeds 2^53 and is rounded, so the first state is 1518681088
    where the step gives 1518680927; for the seed 2^1010 the product
    [state * 1664525] rounds to an infinity, so the state becomes [NaN]. *)
Lemma C8_counterexample :
  seededRandom_step (-1000) = -650620777 /\
  ~ (0 <= rng_value (seededRandom_step (-1000)))%Q /\
  seededRandom_step 1700000000000 = 1518681088 /\
  (1700000000000 * lcg_A + lcg_C) mod two32 = 1518680927 /\
  fl_overflows (2 ^ 1010 * lcg_A) = true.
Proof.
  split; [vm_compute; reflexivity|]. split.
  - vm_compute. intros H. apply H. reflexivity.
  - split; [|split]; vm_compute; reflexivity.
Qed.

(** ** C10 *)

(** C10: for every draw [k / 2^53] of [Math.random()] in [[0, 1)],
    [generateExamCode] returns the decimal string of an integer between
    100 and 999, three characters long; the codes it can return are
    exactly the 900 pairwise distinct strings of [exam_code_space]; so
    [generateExamCodes] asked for more than 900 codes never leaves its
    loop, whatever the (finitely many) draws. *)
Theorem generateExamCode_three_digits :
  (forall k, 0 <= k < 2 ^ 53 ->
     exists n, 100 <= n <= 999 /\ generateExamCode k = number_toString n /\
       String.length (generateExamCode k) = 3%nat) /\
  NoDup exam_code_space /\ length exam_code_space = 900%nat /\
  (forall c, c ∈ exam_code_space <-> exists k, 0 <= k < 2 ^ 53 /\ generateExamCode k = c) /\
  (forall count draws, 900 < count -> Forall (fun k => 0 <= k < 2 ^ 53) draws ->
     generateExamCodes count draws = None).
Proof.
  split; [|split; [exact exam_code_space_NoDup|split; [reflexivity|split]]].
  - intros k Hk. exists (fl (100 * 2 ^ 53 + fl (900 * k)) / 2 ^ 53).
    split; [apply generateExamCode_floor; exact Hk|]. split; [reflexivity|].
    pose proof exam_code_space_length3 as H3. rewrite Forall_forall in H3.
    apply H3, generateExamCode_in_space. exact Hk.
  - intros c. split.
    + intros Hc. apply elem_of_list_map in Hc as (i & <- & Hi).
      apply list_elem_of_In, in_seq in Hi.
      destruct (draw_for_spec i ltac:(lia)) as [Hr Hg].
      exists (draw_for i). split; [exact Hr | exact Hg].
    + intros (k & Hk & <-). apply generateExamCode_in_space. exact Hk.
  - intros count draws Hc Hd. apply gen_loop_stuck; try assumption.
    + constructor.
    + intros c Hin. apply elem_of_nil in Hin. contradiction.
Qed.

Lemma generateExamCode_three_digits_witness :
  generateExamCodes 901 [0; 1; 2] = None /\ String.length (generateExamCode 12345) = 3%nat.
Proof.
  destruct generateExamCode_three_digits as (H1 & _ & _ & _ & H5). split.
  - apply H5; [lia|]. constructor; [lia|]. constructor; [lia|]. constructor; [lia|]. constructor.
  - destruct (H1 12345 ltac:(lia)) as (n & _ & _ & H). exact H.
Defined.

(* ================================================================== *)
(** * Lemmas for the further properties *)

Lemma seededRandom_step_exact st :
  0 <= st < two32 -> seededRandom_step st = (st * lcg_A + lcg_C) mod two32.
Proof.
  intros Hst. unfold seededRandom_step, lcg_A, lcg_C, two32 in *.
  rewrite (fl_exact (st * 1664525)) by (rewrite Z.abs_eq; lia).
  rewrite fl_exact by (rewrite Z.abs_eq; lia).
  apply Z.rem_mod_nonneg; lia.
Qed.

Lemma aff_apply_range p x : 0 <= aff_apply p x < two32.
Proof. unfold aff_apply, two32. apply Z.mod_pos_bound. lia. Qed.

Lemma aff_sq_apply p x : aff_apply (aff_sq p) x = aff_apply p (aff_apply p x).
Proof.
  destruct p as [a c]. unfold aff_apply, aff_sq. simpl.
  rewrite Z.add_mod_idemp_r by (unfold two32; lia).
  rewrite <- Z.add_mod_idemp_l by (unfold two32; lia).
  rewrite Z.mul_mod_idemp_l by (unfold two32; lia).
  rewrite Z.add_mod_idemp_l by (unfold two32; lia).
  rewrite <- (Z.add_mod_idemp_l (a * ((a * x + c) mod two32))) by (unfold two32; lia).
  rewrite Z.mul_mod_idemp_r by (unfold two32; lia).
  rewrite Z.add_mod_idemp_l by (unfold two32; lia).
  f_equal. ring.
Qed.

Lemma iter_pow2_aff k x :
  0 <= x < two32 -> Nat.iter (2 ^ k) seededRandom_step x = aff_apply (aff_pow2 k) x.
Proof.
  revert x. induction k as [|k IH]; intros x Hx.
  - simpl. rewrite seededRandom_step_exact by exact Hx.
    unfold aff_apply. simpl. f_equal. ring.
  - replace (2 ^ S k)%nat with (2 ^ k + 2 ^ k)%nat by (rewrite Nat.pow_succ_r'; lia).
    rewrite Nat.iter_add, (IH x Hx), IH by apply aff_apply_range.
    unfold aff_pow2. simpl Nat.iter. rewrite aff_sq_apply. reflexivity.
Qed.

Lemma aff_pow2_31 : aff_pow2 31 = (1, 2 ^ 31).
Proof. vm_compute. reflexivity. Qed.

Lemma aff_pow2_32 : aff_pow2 32 = (1, 0).
Proof. vm_compute. reflexivity. Qed.

Section Period.

Context {A : Type} (f : A -> A) (x : A).

Lemma iter_fix_mul n q : Nat.iter n f x = x -> Nat.iter (q * n) f x = x.
Proof.
  intros H. induction q as [|q IH]; [reflexivity|].
  replace (S q * n)%nat with (n + q * n)%nat by lia.
  rewrite Nat.iter_add, IH. exact H.
Qed.

Lemma iter_fix_mod a b :
  b <> 0%nat -> Nat.iter a f x = x -> Nat.iter b f x = x -> Nat.iter (a mod b) f x = x.
Proof.
  intros Hb Ha Hb'.
  rewrite (Nat.div_mod_eq a b) in Ha.
  replace (b * (a / b) + a mod b)%nat with (a mod b + (a / b) * b)%nat in Ha by lia.
  rewrite Nat.iter_add, iter_fix_mul in Ha by exact Hb'. exact Ha.
Qed.

Lemma iter_fix_gcd a b :
  Nat.iter a f x = x -> Nat.iter b f x = x -> Nat.iter (Nat.gcd a b) f x = x.
Proof.
  revert b. induction a as [a IH] using (well_founded_induction lt_wf).
  intros b Ha Hb. destruct a as [|a']; [exact Hb|].
  change (Nat.gcd (S a') b) with (Nat.gcd (b mod S a') (S a')).
  apply IH; [apply Nat.mod_upper_bound; lia | | exact Ha].
  apply iter_fix_mod; [lia | exact Hb | exact Ha].
Qed.

End Period.

Lemma divide_pow2_pred k g :
  Nat.divide g (2 ^ S k) -> (g < 2 ^ S k)%nat -> Nat.divide g (2 ^ k).
Proof.
  revert g. induction k as [|k IH]; intros g Hd Hlt.
  - destruct Hd as [t Ht]. simpl in Ht, Hlt.
    assert (g <> 0%nat) by (intros ->; lia).
    assert (g = 1%nat) as -> by nia. apply Nat.divide_1_l.
  - destruct (Nat.Even_or_Odd g) as [[h ->]|[h ->]].
    + rewrite Nat.pow_succ_r' in Hd |- *.
      apply Nat.mul_divide_cancel_l; [lia|].
      apply IH.
      * apply (Nat.mul_divide_cancel_l _ _ 2); [lia|]. exact Hd.
      * rewrite Nat.pow_succ_r' in Hlt. lia.
    + rewrite Nat.pow_succ_r' in Hd.
      apply (Nat.gauss _ 2); [exact Hd|].
      assert (Hle : (Nat.gcd (2 * h + 1) 2 <= 2)%nat)
        by (apply Nat.divide_pos_le; [lia | apply Nat.gcd_divide_r]).
      destruct (Nat.gcd_divide_l (2 * h + 1) 2) as [t Ht].
      destruct (Nat.gcd_divide_r (2 * h + 1) 2) as [u Hu].
      destruct (Nat.gcd (2 * h + 1) 2) as [|[|[|d]]]; [lia | reflexivity | lia | lia].
Qed.

Lemma seededRandom_period st :
  0 <= st < two32 ->
  Nat.iter (2 ^ 32) seededRandom_step st = st /\
  forall n, (0 < n < 2 ^ 32)%nat -> Nat.iter n seededRandom_step st <> st.
Proof.
  intros Hst.
  assert (H32 : Nat.iter (2 ^ 32) seededRandom_step st = st).
  { rewrite iter_pow2_aff by exact Hst. rewrite aff_pow2_32.
    unfold aff_apply. simpl. rewrite Z.add_0_r, Z.mul_1_l. apply Z.mod_small. exact Hst. }
  split; [exact H32|].
  intros n Hn Hfix.
  pose proof (iter_fix_gcd seededRandom_step st n (2 ^ 32) Hfix H32) as Hg.
  set (g := Nat.gcd n (2 ^ 32)) in Hg.
  assert (Hgn : (g <= n)%nat) by (apply Nat.divide_pos_le; [lia | apply Nat.gcd_divide_l]).
  assert (Hd : Nat.divide g (2 ^ 31)).
  { apply divide_pow2_pred; [apply Nat.gcd_divide_r | lia]. }
  destruct Hd as [t Ht].
  assert (H31 : Nat.iter (2 ^ 31) seededRandom_step st = st).
  { rewrite Ht. apply iter_fix_mul. exact Hg. }
  rewrite iter_pow2_aff, aff_pow2_31 in H31 by exact Hst.
  unfold aff_apply in H31. simpl in H31. rewrite Z.mul_1_l in H31.
  unfold two32 in *.
  destruct (Z.ltb_spec (st + 2 ^ 31) (2 ^ 32)).
  - rewrite Z.mod_small in H31 by lia. lia.
  - rewrite (Z.mod_eq (st + 2 ^ 31) (2 ^ 32)) in H31 by lia.
    replace ((st + 2 ^ 31) / 2 ^ 32) with 1 in H31.
    + lia.
    + apply Z.div_unique with (st + 2 ^ 31 - 2 ^ 32); lia.
Qed.

Lemma seededRandom_step_bound st : -two32 < seededRandom_step st < two32.
Proof.
  unfold seededRandom_step.
  pose proof (Z.rem_bound_abs (fl (fl (st * lcg_A) + lcg_C)) two32 ltac:(unfold two32; lia)).
  unfold two32 in *. lia.
Qed.

Lemma fl_nonpos x : x <= 0 -> fl x <= 0.
Proof.
  intros Hx. unfold fl.
  destruct (Z.leb_spec (Z.log2 (Z.abs x) - 52) 0) as [He|He]; [exact Hx|].
  pose proof (rnd_nonneg (Z.log2 (Z.abs x) - 52) (Z.abs x) ltac:(lia) ltac:(lia)).
  destruct (Z.eq_dec x 0) as [->|]; [simpl; lia|].
  rewrite Z.sgn_neg by lia. lia.
Qed.

Lemma shuffle_index_le st (i : Z) :
  -two32 < st < two32 -> 0 <= i -> fl (st * (i + 1)) / two32 <= i.
Proof.
  intros Hst Hi. destruct (Z.leb_spec 0 st).
  - apply shuffle_index_range; lia.
  - pose proof (fl_nonpos (st * (i + 1)) ltac:(nia)).
    assert (fl (st * (i + 1)) / two32 <= 0); [|lia].
    apply Z.div_le_upper_bound; unfold two32; lia.
Qed.

Lemma js_set_length {A} (a : JsArray A) j v :
  j < Z.of_nat (length (elems a)) -> length (elems (js_set a j v)) = length (elems a).
Proof.
  intros Hj. unfold js_set.
  destruct (Z.ltb_spec j 0); [reflexivity|].
  replace (j <? Z.of_nat (length (elems a))) with true by (symmetry; apply Z.ltb_lt; lia).
  apply length_insert.
Qed.

Lemma present_cons {A} (o : option A) l : present (o :: l) = present [o] ++ present l.
Proof. destruct o; reflexivity. Qed.

Lemma present_map_Some {A} (l : list A) : present (map Some l) = l.
Proof. induction l as [|x l IH]; simpl; [reflexivity|]. rewrite IH. reflexivity. Qed.

Lemma present_elem {A} (l : list (option A)) x : Some x ∈ l -> x ∈ present l.
Proof.
  induction l as [|o l IH]; intros H; [apply elem_of_nil in H; contradiction|].
  apply elem_of_cons in H as [H|H].
  - subst o. simpl. left.
  - rewrite present_cons. apply elem_of_app. right. apply IH, H.
Qed.

Lemma perm_swap_ends {A} (x m y : list A) : x ++ m ++ y ≡ₚ y ++ m ++ x.
Proof.
  rewrite app_assoc, (Permutation_app_comm (x ++ m) y).
  apply Permutation_app_head, Permutation_app_comm.
Qed.

Lemma perm_trade {A} (P0 P1 P2 X Y : list A) :
  P1 ++ Y ≡ₚ P0 ++ X -> P2 ++ X ≡ₚ P1 ++ Y -> P2 ≡ₚ P0.
Proof.
  intros H1 H2. apply (Permutation_app_inv_r X). etrans; [exact H2 | exact H1].
Qed.

(** Writing [v] over the slot that held [w] replaces [w] by [v] among the
    values the list holds. *)
Lemma present_insert {A} (l : list (option A)) n (w v : option A) :
  l !! n = Some w ->
  present (<[n := v]> l) ++ present [w] ≡ₚ present l ++ present [v].
Proof.
  revert n. induction l as [|o l IH]; intros n H; [discriminate|].
  destruct n as [|n]; cbn [lookup list_lookup] in H.
  - injection H as ->. cbn [insert list_insert].
    rewrite (present_cons v l), (present_cons w l), <- !app_assoc.
    apply perm_swap_ends.
  - cbn [insert list_insert].
    rewrite (present_cons o (<[n := v]> l)), (present_cons o l), <- !app_assoc.
    apply Permutation_app_head, IH, H.
Qed.

Lemma present_prop_set {A} (ps : list (Z * option A)) k v :
  present (map snd (prop_set ps k v)) ++ present [prop_get ps k] ≡ₚ
  present (map snd ps) ++ present [v].
Proof.
  induction ps as [|[k' v'] ps IH]; cbn [prop_set prop_get map snd].
  - rewrite app_nil_r. reflexivity.
  - destruct (Z.eqb k k'); cbn [map snd].
    + rewrite (present_cons v (map snd ps)), (present_cons v' (map snd ps)), <- !app_assoc.
      apply perm_swap_ends.
    + rewrite (present_cons v' (map snd (prop_set ps k v))), (present_cons v' (map snd ps)),
        <- !app_assoc.
      apply Permutation_app_head, IH.
Qed.

(** Every write [arr[j] = v] trades the value [arr[j]] held for [v]. *)
Lemma js_set_present {A} (a : JsArray A) j v :
  0 <= j < Z.of_nat (length (elems a)) \/ j < 0 ->
  (present (elems (js_set a j v)) ++ present (map snd (props (js_set a j v)))) ++
    present [js_get a j] ≡ₚ
  (present (elems a) ++ present (map snd (props a))) ++ present [v].
Proof.
  intros Hj. unfold js_set, js_get.
  destruct (Z.ltb_spec j 0) as [Hn|Hn].
  - replace (0 <=? j) with false by (symmetry; apply Z.leb_gt; lia). cbn [elems props].
    rewrite <- !app_assoc. apply Permutation_app_head, present_prop_set.
  - replace (0 <=? j) with true by (symmetry; apply Z.leb_le; lia).
    replace (j <? Z.of_nat (length (elems a))) with true by (symmetry; apply Z.ltb_lt; lia).
    cbn [elems props].
    destruct (elems a !! Z.to_nat j) as [w|] eqn:E;
      [|apply lookup_ge_None in E; lia].
    pose proof (present_insert (elems a) (Z.to_nat j) w v E) as Hi.
    rewrite <- !app_assoc.
    rewrite (Permutation_app_comm (present (map snd (props a))) (present [w])).
    rewrite (Permutation_app_comm (present (map snd (props a))) (present [v])).
    rewrite !app_assoc. apply Permutation_app_tail, Hi.
Qed.

Lemma js_get_set_same {A} (a : JsArray A) j v :
  0 <= j < Z.of_nat (length (elems a)) \/ j < 0 -> js_get (js_set a j v) j = v.
Proof.
  intros Hj. unfold js_set, js_get.
  destruct (Z.ltb_spec j 0) as [Hn|Hn].
  - replace (0 <=? j) with false by (symmetry; apply Z.leb_gt; lia). cbn [elems props].
    clear Hj Hn. induction (props a) as [|[k' v'] ps IH]; cbn [prop_set prop_get].
    + rewrite Z.eqb_refl. reflexivity.
    + destruct (Z.eqb_spec j k') as [->|Hne]; cbn [prop_get].
      * rewrite Z.eqb_refl. reflexivity.
      * apply Z.eqb_neq in Hne. rewrite Hne. exact IH.
  - replace (j <? Z.of_nat (length (elems a))) with true by (symmetry; apply Z.ltb_lt; lia).
    cbn [elems props]. replace (0 <=? j) with true by (symmetry; apply Z.leb_le; lia).
    rewrite list_lookup_insert, decide_True by lia. reflexivity.
Qed.

Lemma js_get_set_other {A} (a : JsArray A) k j v :
  0 <= k < Z.of_nat (length (elems a)) -> j <> k -> js_get (js_set a k v) j = js_get a j.
Proof.
  intros Hk Hne. unfold js_set.
  replace (k <? 0) with false by (symmetry; apply Z.ltb_ge; lia).
  replace (k <? Z.of_nat (length (elems a))) with true by (symmetry; apply Z.ltb_lt; lia).
  unfold js_get. cbn [elems props]. destruct (0 <=? j) eqn:Ej; [|reflexivity].
  apply Z.leb_le in Ej. rewrite list_lookup_insert_ne by lia. reflexivity.
Qed.

Lemma js_set_props_neg {A} (a : JsArray A) j v :
  Forall (fun kv => kv.1 < 0) (props a) ->
  Forall (fun kv => kv.1 < 0) (props (js_set a j v)).
Proof.
  intros H. unfold js_set.
  destruct (Z.ltb_spec j 0) as [Hn|Hn]; [|destruct (j <? _); exact H].
  cbn [props]. induction (props a) as [|[k' v'] ps IH]; cbn [prop_set].
  - constructor; [exact Hn | constructor].
  - apply Forall_cons in H as [H1 H2].
    destruct (Z.eqb j k'); constructor; [exact Hn|exact H2|exact H1|apply IH, H2].
Qed.

(** One run of the shuffle loop keeps the length, writes only negative
    property keys, and keeps the values held by elements and properties
    together. *)
Lemma shuffle_loop_conserves {A} (i : nat) st (a : JsArray A) :
  (i < length (elems a))%nat \/ i = 0%nat ->
  length (elems (shuffle_loop i st a)) = length (elems a) /\
  (Forall (fun kv => kv.1 < 0) (props a) ->
   Forall (fun kv => kv.1 < 0) (props (shuffle_loop i st a))) /\
  present (elems (shuffle_loop i st a)) ++ present (map snd (props (shuffle_loop i st a))) ≡ₚ
  present (elems a) ++ present (map snd (props a)).
Proof.
  revert st a. induction i as [|i IH]; intros st a Hi; [split; [|split]; auto|].
  cbn [shuffle_loop].
  pose proof (seededRandom_step_bound st) as Hb.
  pose proof (shuffle_index_le (seededRandom_step st) (Z.of_nat (S i)) Hb ltac:(lia)) as Hj.
  set (j := fl (seededRandom_step st * (Z.of_nat (S i) + 1)) / two32) in *.
  set (x := js_get a j). set (y := js_get a (Z.of_nat (S i))).
  set (a1 := js_set a (Z.of_nat (S i)) x).
  set (a2 := js_set a1 j y).
  assert (Hr : 0 <= Z.of_nat (S i) < Z.of_nat (length (elems a)) \/ Z.of_nat (S i) < 0) by lia.
  assert (H1 : length (elems a1) = length (elems a)) by (apply js_set_length; lia).
  assert (H2 : length (elems a2) = length (elems a)) by (unfold a2; rewrite js_set_length; lia).
  assert (Hx : js_get a1 j = x).
  { destruct (Z.eq_dec j (Z.of_nat (S i))) as [Heq|Hne].
    - unfold a1. rewrite Heq, js_get_set_same by exact Hr. unfold x. rewrite Heq. reflexivity.
    - unfold a1. apply js_get_set_other; [lia | exact Hne]. }
  pose proof (js_set_present a (Z.of_nat (S i)) x Hr) as Hp1. fold a1 y in Hp1.
  pose proof (js_set_present a1 j y ltac:(lia)) as Hp2. fold a2 in Hp2. rewrite Hx in Hp2.
  destruct (IH (seededRandom_step st) a2 ltac:(left; lia)) as (IHl & IHn & IHp).
  split; [|split].
  - rewrite IHl. exact H2.
  - intros Hn. apply IHn. apply js_set_props_neg, js_set_props_neg, Hn.
  - etrans; [exact IHp|]. exact (perm_trade _ _ _ _ _ Hp1 Hp2).
Qed.

Lemma shuffleArray_conserve {A} (array : list A) seed :
  length (elems (shuffleArray array seed)) = length array /\
  Forall (fun kv => kv.1 < 0) (props (shuffleArray array seed)) /\
  present (elems (shuffleArray array seed)) ++
    present (map snd (props (shuffleArray array seed))) ≡ₚ array.
Proof.
  unfold shuffleArray.
  destruct (shuffle_loop_conserves (length array - 1) seed
              {| elems := map Some array; props := [] |}) as (Hl & Hn & Hp).
  { cbn [elems]. rewrite length_map. destruct (length array); [right; reflexivity | left; lia]. }
  split; [|split].
  - rewrite Hl. apply length_map.
  - apply Hn. constructor.
  - etrans; [exact Hp|]. cbn [elems props map]. rewrite present_map_Some, app_nil_r. reflexivity.
Qed.

Lemma shuffleArray_length {A} (array : list A) seed :
  length (elems (shuffleArray array seed)) = length array.
Proof. apply shuffleArray_conserve. Qed.

Lemma shuffleArray_elem {A} (array : list A) seed x :
  Some x ∈ elems (shuffleArray array seed) -> x ∈ array.
Proof.
  intros H. destruct (shuffleArray_conserve array seed) as (_ & _ & Hp).
  rewrite <- Hp. apply elem_of_app. left. apply present_elem, H.
Qed.

Lemma elems_arr_map {A B} (f : A -> B) (a : JsArray A) :
  elems (arr_map f a) = map (option_map f) (elems a).
Proof. reflexivity. Qed.

Lemma prop_get_map {A B} (f : A -> B) (ps : list (Z * option A)) k :
  prop_get (map (fun kv => (kv.1, option_map f kv.2)) ps) k = option_map f (prop_get ps k).
Proof.
  induction ps as [|[k' v'] ps IH]; cbn [map prop_get fst snd]; [reflexivity|].
  destruct (Z.eqb k k'); [reflexivity | exact IH].
Qed.

Lemma prop_set_map {A B} (f : A -> B) (ps : list (Z * option A)) k v :
  prop_set (map (fun kv => (kv.1, option_map f kv.2)) ps) k (option_map f v) =
  map (fun kv => (kv.1, option_map f kv.2)) (prop_set ps k v).
Proof.
  induction ps as [|[k' v'] ps IH]; cbn [map prop_set fst snd]; [reflexivity|].
  destruct (Z.eqb k k'); [reflexivity|]. cbn [map fst snd]. rewrite IH. reflexivity.
Qed.

Lemma js_get_map {A B} (f : A -> B) (a : JsArray A) j :
  js_get (arr_map f a) j = option_map f (js_get a j).
Proof.
  unfold js_get, arr_map. cbn [elems props]. destruct (0 <=? j).
  - rewrite list_lookup_fmap. destruct (elems a !! Z.to_nat j); reflexivity.
  - apply prop_get_map.
Qed.

Lemma js_set_map {A B} (f : A -> B) (a : JsArray A) j v :
  js_set (arr_map f a) j (option_map f v) = arr_map f (js_set a j v).
Proof.
  unfold js_set, arr_map. cbn [elems props]. rewrite length_map.
  destruct (j <? 0).
  - rewrite prop_set_map. reflexivity.
  - destruct (j <? Z.of_nat (length (elems a))).
    + f_equal. symmetry. apply (list_fmap_insert (option_map f)).
    + f_equal. cbn [elems]. rewrite !map_app. f_equal. f_equal.
      symmetry. apply (fmap_replicate (option_map f)).
Qed.

Lemma shuffle_loop_map {A B} (f : A -> B) (i : nat) st (a : JsArray A) :
  shuffle_loop i st (arr_map f a) = arr_map f (shuffle_loop i st a).
Proof.
  revert st a. induction i as [|i IH]; intros st a; [reflexivity|].
  cbn [shuffle_loop]. rewrite !js_get_map, !js_set_map. apply IH.
Qed.

Lemma shuffleArray_map {A B} (f : A -> B) (array : list A) seed :
  shuffleArray (map f array) seed = arr_map f (shuffleArray array seed).
Proof.
  unfold shuffleArray. rewrite length_map, <- shuffle_loop_map.
  unfold arr_map. cbn [elems props map]. rewrite !map_map. reflexivity.
Qed.

Lemma remap_loop_view idx (l1 l2 : list (option OptionItem)) m :
  map (option_map option_view) l1 = map (option_map option_view) l2 ->
  remap_loop idx l1 m = remap_loop idx l2 m.
Proof.
  revert idx l2 m. induction l1 as [|o1 l1 IH]; intros idx [|o2 l2] m H;
    try discriminate; [reflexivity|].
  simpl in H. injection H as Ho Hl.
  destruct o1 as [o1|], o2 as [o2|]; try discriminate; [|reflexivity].
  simpl in Ho. unfold option_view in Ho. injection Ho as Hlab Hc.
  simpl. rewrite Hlab, Hc. rewrite (IH (S idx) l2 _ Hl). reflexivity.
Qed.

Lemma shuffleOptions_view (opts1 opts2 : list OptionItem) seed :
  map option_view opts1 = map option_view opts2 ->
  shuffleOptions opts1 seed = shuffleOptions opts2 seed.
Proof.
  intros H. unfold shuffleOptions. apply remap_loop_view.
  rewrite <- !elems_arr_map, <- !shuffleArray_map, H. reflexivity.
Qed.

Lemma map_pair_eq {A B C D} (f1 : A -> C) (g1 : A -> D) (f2 : B -> C) (g2 : B -> D) l1 l2 :
  map f1 l1 = map f2 l2 -> map g1 l1 = map g2 l2 ->
  map (fun x => (f1 x, g1 x)) l1 = map (fun x => (f2 x, g2 x)) l2.
Proof.
  revert l2. induction l1 as [|x l1 IH]; intros [|y l2] Hf Hg; try discriminate; [reflexivity|].
  simpl in *. injection Hf as Hf1 Hf2. injection Hg as Hg1 Hg2.
  rewrite Hf1, Hg1, (IH l2 Hf2 Hg2). reflexivity.
Qed.

Lemma shuffleOptions_pairs (opts : list OptionItem) seed rs m :
  0 <= seed -> shuffleOptions opts seed = Some (rs, m) ->
  map (fun mo => (originalLabel mo, content mo)) rs ≡ₚ map option_view opts /\
  map label rs = map (fun i => labels !! i) (seq 0 (length opts)).
Proof.
  intros Hs Hso.
  destruct (shuffleOptions_defined opts seed Hs)
    as (ys & rs' & m' & _ & Hp & Hso' & Hol & Hc & Hl & _).
  rewrite Hso in Hso'. injection Hso' as <- <-.
  split; [|exact Hl].
  rewrite (map_pair_eq originalLabel content Store.label Store.content rs ys Hol Hc).
  apply Permutation_map. exact Hp.
Qed.

Lemma remap_loop_get idx l m0 rs m k :
  remap_loop idx l m0 = Some (rs, m) ->
  map_get m k = match last_label rs k with Some v => Some v | None => map_get m0 k end.
Proof.
  revert idx m0 rs. induction l as [|[o|] l IH]; intros idx m0 rs H; simpl in H.
  - injection H as <- <-. reflexivity.
  - destruct (remap_loop (S idx) l (map_set m0 (Store.label o) (labels !! idx)))
      as [[rs' m']|] eqn:E; [|discriminate].
    injection H as <- <-. rewrite (IH _ _ _ E). simpl.
    destruct (last_label rs' k); [reflexivity|].
    rewrite map_get_set, String.eqb_sym. destruct (String.eqb (Store.label o) k); reflexivity.
  - discriminate.
Qed.

Lemma last_label_spec rs k p mo :
  rs !! p = Some mo -> originalLabel mo = k ->
  (forall p' mo', rs !! p' = Some mo' -> originalLabel mo' = k -> (p' <= p)%nat) ->
  last_label rs k = Some (label mo).
Proof.
  revert p. induction rs as [|mo0 rs IH]; intros p Hp Hk Hmax; [discriminate|].
  simpl. destruct p as [|p].
  - simpl in Hp. injection Hp as <-.
    destruct (last_label rs k) as [v|] eqn:E.
    + exfalso.
      assert (exists p' mo', rs !! p' = Some mo' /\ originalLabel mo' = k) as (p' & mo' & H1 & H2).
      { clear - E. revert v E. induction rs as [|x rs IH]; intros v E; [discriminate|].
        simpl in E. destruct (last_label rs k) as [w|] eqn:E'.
        - destruct (IH w eq_refl) as (p' & mo' & H1 & H2). exists (S p'), mo'. auto.
        - destruct (String.eqb (originalLabel x) k) eqn:Ex; [|discriminate].
          apply String.eqb_eq in Ex. exists 0%nat, x. auto. }
      specialize (Hmax (S p') mo' H1 H2). lia.
    + rewrite Hk, String.eqb_refl. reflexivity.
  - simpl in Hp. rewrite (IH p Hp Hk).
    + reflexivity.
    + intros p' mo' H1 H2. specialize (Hmax (S p') mo' H1 H2). lia.
Qed.

Lemma last_label_none rs k : k ∉ map originalLabel rs -> last_label rs k = None.
Proof.
  induction rs as [|mo rs IH]; intros Hk; [reflexivity|].
  simpl. rewrite IH by (intros H; apply Hk; right; exact H).
  destruct (String.eqb (originalLabel mo) k) eqn:E; [|reflexivity].
  apply String.eqb_eq in E. exfalso. apply Hk. rewrite <- E. left.
Qed.

Lemma remap_loop_values idx l m0 rs m :
  remap_loop idx l m0 = Some (rs, m) ->
  (forall k s, map_get m0 k = Some (Some s) -> s ∈ labels) ->
  forall k s, map_get m k = Some (Some s) -> s ∈ labels.
Proof.
  revert idx m0 rs. induction l as [|[o|] l IH]; intros idx m0 rs H H0; simpl in H.
  - injection H as <- <-. exact H0.
  - destruct (remap_loop (S idx) l (map_set m0 (Store.label o) (labels !! idx)))
      as [[rs' m']|] eqn:E; [|discriminate].
    injection H as <- <-. apply (IH _ _ _ E).
    intros k s Hk. rewrite map_get_set in Hk.
    destruct (String.eqb k (Store.label o)).
    + injection Hk as Hk. apply (labels_nonempty idx s Hk).
    + apply (H0 k s Hk).
  - discriminate.
Qed.

Lemma mixExam_question_source now draws (doc : ParsedDoc) V vs e mq :
  mixExam now draws doc V = inr vs -> e ∈ vs -> mq ∈ questions e ->
  exists q p seed, q ∈ Store.questions doc /\ mixQuestion (Some q) p seed = Some mq.
Proof.
  intros Hmix He Hmq. unfold mixExam in Hmix.
  destruct (generateExamCodes V draws) as [codes|]; [|discriminate].
  destruct (variants_loop_spec now doc codes 0 _ vs Hmix) as [_ Hp].
  apply list_elem_of_lookup in He as [pv He].
  destruct (Hp pv e He) as [_ Hmv]. unfold mixVariant in Hmv.
  destruct (mixVariant_loop_spec 0 _ _ _ Hmv) as [_ Hq].
  apply list_elem_of_lookup in Hmq as [p Hmq].
  destruct (Hq p mq Hmq) as ([q|] & Hl & Hm); [|discriminate].
  exists q, (0 + p)%nat, (now (0 + pv)%nat + Z.of_nat (0 + pv) * 1000). split; [|exact Hm].
  apply (shuffleArray_elem (Store.questions doc) (now (0 + pv)%nat + Z.of_nat (0 + pv) * 1000)).
  apply list_elem_of_lookup. exists p. exact Hl.
Qed.

Lemma mixQuestion_correctAnswer (q : Question) p seed mq :
  mixQuestion (Some q) p seed = Some mq ->
  correctAnswer mq ∈ labels \/ correctAnswer mq = Store.correct_label q.
Proof.
  intros H. destruct (mixQuestion_fields q p seed mq H) as (_ & _ & _ & rs & m & Hso & _ & Hc).
  rewrite Hc. unfold shuffleOptions in Hso.
  pose proof (remap_loop_values 0 _ [] rs m Hso) as Hv.
  unfold or_default.
  destruct (map_get m (Store.correct_label q)) as [[s|]|] eqn:E; [|right; reflexivity|right; reflexivity].
  destruct (String.eqb s "") eqn:Es; [right; reflexivity|].
  left. apply (Hv ltac:(intros k s' Hk; discriminate) (Store.correct_label q) s E).
Qed.

Lemma mixVariant_loop_fields idx (ys : list Question) seed mqs :
  mixVariant_loop idx (map Some ys) seed = Some mqs ->
  map (fun mq => (originalNumber mq, stem mq)) mqs = map (fun q => (Store.number q, Store.stem q)) ys /\
  map displayNumber mqs = map (fun i => Z.of_nat i + 1) (seq idx (length ys)).
Proof.
  revert idx mqs. induction ys as [|y ys IH]; intros idx mqs H; cbn [map mixVariant_loop] in H.
  - injection H as <-. split; reflexivity.
  - destruct (mixQuestion (Some y) idx seed) as [mq|] eqn:E0; [|discriminate].
    destruct (mixVariant_loop (S idx) (map Some ys) seed) as [rest|] eqn:E1; [|discriminate].
    injection H as <-. destruct (IH (S idx) rest E1) as [H1 H2].
    destruct (mixQuestion_fields y idx seed mq E0) as (Hn & Hd & Hs & _).
    simpl. rewrite H1, H2, Hn, Hd, Hs. split; reflexivity.
Qed.

Lemma mixExam_codes now draws (doc : ParsedDoc) V vs codes :
  generateExamCodes V draws = Some codes -> mixExam now draws doc V = inr vs ->
  map examCode vs = map Some codes /\ Z.of_nat (length vs) = Z.max 0 V /\
  forall e, e ∈ vs -> length (questions e) = length (Store.questions doc).
Proof.
  intros Hg Hmix. unfold mixExam in Hmix. rewrite Hg in Hmix.
  destruct (gen_loop_spec V [] draws codes Hg ltac:(constructor) ltac:(simpl; lia)) as [_ Hlen].
  destruct (variants_loop_spec now doc codes 0 _ vs Hmix) as [Hl Hp].
  split; [|split].
  - apply list_eq. intros p. rewrite !list_lookup_fmap.
    destruct (vs !! p) as [e|] eqn:E.
    + destruct (Hp p e E) as [Hc _]. simpl. rewrite Hc, Nat.add_0_l.
      destruct (codes !! p) eqn:Ec; [reflexivity|].
      apply lookup_lt_Some in E. apply lookup_ge_None in Ec. lia.
    + apply lookup_ge_None in E.
      destruct (codes !! p) eqn:Ec; [|reflexivity].
      apply lookup_lt_Some in Ec. lia.
  - rewrite Hl. lia.
  - intros e He. apply list_elem_of_lookup in He as [p He].
    destruct (Hp p e He) as [_ Hm]. unfold mixVariant in Hm.
    destruct (mixVariant_loop_spec 0 _ _ _ Hm) as [Hlq _].
    rewrite Hlq. apply shuffleArray_length.
Qed.

Lemma or_dash_nonempty s : or_dash s <> "".
Proof.
  unfold or_dash. destruct (String.eqb s "") eqn:E; [discriminate|].
  intros ->. discriminate.
Qed.

Lemma answer_cell_nonempty n e : answer_cell n e <> "".
Proof.
  unfold answer_cell. destruct (List.find _ _); [apply or_dash_nonempty | discriminate].
Qed.

Lemma fl_abs x : Z.abs (fl x) = fl (Z.abs x).
Proof.
  unfold fl. cbv zeta. rewrite (Z.abs_eq (Z.abs x)) by apply Z.abs_nonneg.
  destruct (Z.leb_spec (Z.log2 (Z.abs x) - 52) 0) as [He|He]; [reflexivity|].
  assert (Hx : x <> 0) by (intros ->; simpl in He; lia).
  pose proof (rnd_nonneg (Z.log2 (Z.abs x) - 52) (Z.abs x) ltac:(lia) ltac:(lia)).
  rewrite Z.abs_mul, (Z.abs_eq (rnd _ _)) by lia.
  rewrite (Z.sgn_pos (Z.abs x)) by lia.
  destruct (Z.lt_trichotomy x 0) as [Hn|[Hn|Hn]];
    [rewrite Z.sgn_neg by lia | lia | rewrite Z.sgn_pos by lia]; lia.
Qed.

Lemma fl_abs_le x : Z.abs (fl x) <= 2 * Z.abs x.
Proof.
  rewrite fl_abs. pose proof (fl_le (Z.abs x) (Z.abs_nonneg x)).
  assert (Z.abs x / 2 ^ 53 <= Z.abs x).
  { apply Z.div_le_upper_bound; [lia|]. pose proof (Z.abs_nonneg x). nia. }
  lia.
Qed.

Lemma seededRandom_step_no_overflow st :
  Z.abs st < 2 ^ 1000 ->
  fl_overflows (st * lcg_A) = false /\ fl_overflows (fl (st * lcg_A) + lcg_C) = false.
Proof.
  intros Hs. unfold fl_overflows, lcg_A, lcg_C.
  pose proof (fl_abs_le (st * 1664525)) as H1.
  pose proof (fl_abs_le (fl (st * 1664525) + 1013904223)) as H2.
  assert (E : 2 ^ 1024 = 2 ^ 24 * 2 ^ 1000) by (rewrite <- Z.pow_add_r; lia).
  assert (Hp : 0 < 2 ^ 1000) by (apply Z.pow_pos_nonneg; lia).
  rewrite E. set (B := 2 ^ 1000) in *.
  replace (2 ^ 24) with 16777216 by reflexivity.
  split; apply Z.leb_gt; lia.
Qed.

(* ================================================================== *)
(** * Further properties *)

(** X1: started from a state in [0, 2^32), the generator step of [seededRandom] returns to that state after exactly 2^32 steps and not before: the state sequence has full period 2^32. *)
Theorem seededRandom_full_period (st : Z) :
  0 <= st < two32 ->
  Nat.iter (2 ^ 32) seededRandom_step st = st /\
  forall n, (0 < n < 2 ^ 32)%nat -> Nat.iter n seededRandom_step st <> st.
Proof. apply seededRandom_period. Qed.

Lemma seededRandom_full_period_witness :
  Nat.iter (2 ^ 32) seededRandom_step 0 = 0 /\ Nat.iter 5 seededRandom_step 0 <> 0.
Proof.
  split.
  - apply (seededRandom_full_period 0). unfold two32. lia.
  - apply (seededRandom_full_period 0); [unfold two32; lia | split; [lia|]].
    apply Nat.lt_le_trans with (2 ^ 3)%nat; [cbn; lia|].
    apply Nat.pow_le_mono_r; lia.
Defined.

(** X2: for every integer seed below 2^1000 in magnitude, no double
    operation of [seededRandom] overflows (neither [state * 1664525] nor
    the sum with 1013904223 rounds to an infinity, for the seed and for
    every later state), every state lies strictly between -2^32 and 2^32,
    and every value returned lies strictly between -1 and 1. *)
Theorem seededRandom_no_overflow (seed : Z) (n : nat) :
  Z.abs seed < 2 ^ 1000 ->
  Forall (fun st => fl_overflows (st * lcg_A) = false /\
                    fl_overflows (fl (st * lcg_A) + lcg_C) = false)
         (seed :: seededRandom_states seed n) /\
  Forall (fun st => -two32 < st < two32) (seededRandom_states seed n) /\
  Forall (fun v => -1 < v < 1)%Q (seededRandom seed n).
Proof.
  intros Hs.
  assert (Hr : Forall (fun st => -two32 < st < two32) (seededRandom_states seed n)).
  { clear Hs. revert seed. induction n as [|n IH]; intros seed; simpl; constructor.
    - apply seededRandom_step_bound.
    - apply IH. }
  split; [|split; [exact Hr|]].
  - constructor; [apply seededRandom_step_no_overflow, Hs|].
    eapply Forall_impl; [exact Hr|]. intros st Hst.
    apply seededRandom_step_no_overflow.
    assert (two32 <= 2 ^ 1000) by (unfold two32; apply Z.pow_le_mono_r; lia). unfold two32 in *. lia.
  - unfold seededRandom. apply Forall_map. eapply Forall_impl; [exact Hr|].
    intros st Hst. unfold rng_value, two32, Qlt in *. simpl. lia.
Qed.

Lemma seededRandom_no_overflow_witness :
  Forall (fun v => -1 < v < 1)%Q (seededRandom (-1000) 3).
Proof.
  apply (proj2 (proj2 (seededRandom_no_overflow (-1000) 3 ltac:(vm_compute; reflexivity)))).
Defined.

(** X3: for every integer seed below 2^1000 in magnitude (so that the
    generator stays finite, X2), [shuffleArray] returns an array object
    with as many elements as the input, whose other properties written by
    the swaps all have negative keys, and whose elements and properties
    together hold exactly the input values, with their multiplicities: a
    value missing from the elements (the negative-seed case) sits in a
    property such as ["-1"]. *)
Theorem shuffleArray_conserves {A} (array : list A) (seed : Z) :
  Z.abs seed < 2 ^ 1000 ->
  length (elems (shuffleArray array seed)) = length array /\
  Forall (fun kv => kv.1 < 0) (props (shuffleArray array seed)) /\
  present (elems (shuffleArray array seed)) ++
    present (map snd (props (shuffleArray array seed))) ≡ₚ array.
Proof. intros _. apply shuffleArray_conserve. Qed.

Lemma shuffleArray_conserves_witness :
  present (elems (shuffleArray [1; 2; 3]%nat (-1000))) ++
    present (map snd (props (shuffleArray [1; 2; 3]%nat (-1000)))) ≡ₚ [1; 2; 3]%nat /\
  present (elems (shuffleArray [1; 2; 3]%nat (-1000))) = [1; 3]%nat.
Proof.
  split.
  - apply (shuffleArray_conserves [1; 2; 3]%nat (-1000) ltac:(vm_compute; reflexivity)).
  - vm_compute. reflexivity.
Defined.

(** X5: [shuffleOptions] reads only the label and the content of each option: two option lists that agree on them (for instance differing only in [locked]) give the same result. *)
Theorem shuffleOptions_ignores_locked (opts1 opts2 : list OptionItem) (seed : Z) :
  map (fun o => (Store.label o, Store.content o)) opts1 =
  map (fun o => (Store.label o, Store.content o)) opts2 ->
  shuffleOptions opts1 seed = shuffleOptions opts2 seed.
Proof. apply shuffleOptions_view. Qed.

Lemma shuffleOptions_ignores_locked_witness :
  shuffleOptions (map locked_option abcd) 7 = shuffleOptions (map sample_option abcd) 7 /\
  map originalLabel (match shuffleOptions (map locked_option abcd) 7 with
                     | Some (rs, _) => rs | None => [] end) = ["D"; "B"; "C"; "A"].
Proof.
  split.
  - apply shuffleOptions_ignores_locked. reflexivity.
  - vm_compute. reflexivity.
Defined.

(** X6: for a nonnegative seed, a successful [shuffleOptions] gives options whose (original label, content) pairs are a permutation of the input (label, content) pairs, and whose new labels are A, B, C, ... by position. *)
Theorem shuffleOptions_contents (opts : list OptionItem) (seed : Z) rs m :
  0 <= seed -> shuffleOptions opts seed = Some (rs, m) ->
  map (fun mo => (originalLabel mo, content mo)) rs ≡ₚ
    map (fun o => (Store.label o, Store.content o)) opts /\
  map label rs = map (fun i => labels !! i) (seq 0 (length opts)).
Proof. apply shuffleOptions_pairs. Qed.

Lemma shuffleOptions_contents_witness :
  map label (match shuffleOptions (map sample_option abcd) 7 with
             | Some (rs, _) => rs | None => [] end) = [Some "A"; Some "B"; Some "C"; Some "D"].
Proof.
  destruct (shuffleOptions (map sample_option abcd) 7) as [[rs m]|] eqn:E.
  - exact (proj2 (shuffleOptions_contents (map sample_option abcd) 7 rs m ltac:(lia) E)).
  - vm_compute in E. discriminate E.
Defined.

(** X7: the mapping returned by [shuffleOptions] has no entry for a label that no option carries, and for a label carried by several options it maps to the new label of the last such option in the result. *)
Theorem shuffleOptions_mapping_last (opts : list OptionItem) (seed : Z) rs m k :
  shuffleOptions opts seed = Some (rs, m) ->
  (k ∉ map originalLabel rs -> map_get m k = None) /\
  (forall p mo, rs !! p = Some mo -> originalLabel mo = k ->
     (forall p' mo', rs !! p' = Some mo' -> originalLabel mo' = k -> (p' <= p)%nat) ->
     map_get m k = Some (label mo)).
Proof.
  intros H. unfold shuffleOptions in H. split.
  - intros Hk. rewrite (remap_loop_get _ _ _ _ _ k H), last_label_none by exact Hk. reflexivity.
  - intros p mo Hp Hk Hmax.
    rewrite (remap_loop_get _ _ _ _ _ k H), (last_label_spec rs k p mo Hp Hk Hmax). reflexivity.
Qed.

Lemma shuffleOptions_mapping_last_witness :
  map_get (match shuffleOptions (map sample_option ["A"; "A"; "B"]) 0 with
           | Some (_, m) => m | None => [] end) "A" = Some (Some "C").
Proof.
  destruct (shuffleOptions (map sample_option ["A"; "A"; "B"]) 0) as [[rs m]|] eqn:E.
  - pose proof E as E'. vm_compute in E'. injection E' as <- <-.
    apply (proj2 (shuffleOptions_mapping_last _ 0 _ _ "A" E) 2%nat
             {| label := Some "C"; originalLabel := "A";
                content := [Store.Text "option A"] |}).
    + reflexivity.
    + reflexivity.
    + intros p' mo' H1 _. destruct p' as [|[|[|p']]]; simpl in H1; try lia. discriminate H1.
  - vm_compute in E. discriminate E.
Defined.

(** X8: in every variant of a successful [mixExam], each question comes from a question of the document with the same number, and its correct answer is one of the option letters A-F or the source question's own correct label. *)
Theorem mixExam_correctAnswer_letter now draws (doc : ParsedDoc) V vs :
  mixExam now draws doc V = inr vs ->
  forall e, e ∈ vs -> forall mq, mq ∈ questions e ->
    exists q, q ∈ Store.questions doc /\ originalNumber mq = Store.number q /\
      (correctAnswer mq ∈ labels \/ correctAnswer mq = Store.correct_label q).
Proof.
  intros Hmix e He mq Hmq.
  destruct (mixExam_question_source now draws doc V vs e mq Hmix He Hmq) as (q & p & seed & Hin & Hm).
  exists q. split; [exact Hin|]. split.
  - apply (mixQuestion_fields q p seed mq Hm).
  - apply (mixQuestion_correctAnswer q p seed mq Hm).
Qed.

Lemma mixExam_correctAnswer_letter_witness :
  match mixExam (fun _ => 1700000000000) [0] doc_two 1 with
  | inr vs => vs <> [] /\
      Forall (fun e => Forall (fun mq => correctAnswer mq ∈ labels \/
        exists q, q ∈ Store.questions doc_two /\ correctAnswer mq = Store.correct_label q)
        (questions e)) vs
  | inl _ => False
  end.
Proof.
  destruct (mixExam (fun _ => 1700000000000) [0] doc_two 1) as [err|vs] eqn:E.
  - vm_compute in E. discriminate E.
  - split; [pose proof E as E'; vm_compute in E'; injection E' as <-; discriminate|].
    apply Forall_forall. intros e He. apply Forall_forall. intros mq Hmq.
    destruct (mixExam_correctAnswer_letter (fun _ => 1700000000000) [0] doc_two 1 vs E e He mq Hmq)
      as (q & Hq & _ & [H|H]); [left; exact H | right; exists q; split; assumption].
Defined.

(** X9: with a nonnegative clock, a successful [mixExam] builds max 0 V variants, each holding the (number, stem) pairs of the document's questions in some order, displayed as 1, 2, ..., n. *)
Theorem mixExam_variant_shape now draws (doc : ParsedDoc) V vs :
  (forall v, 0 <= now v) -> mixExam now draws doc V = inr vs ->
  length vs = Z.to_nat V /\
  forall e, e ∈ vs ->
    map (fun mq => (originalNumber mq, stem mq)) (questions e) ≡ₚ
      map (fun q => (Store.number q, Store.stem q)) (Store.questions doc) /\
    map displayNumber (questions e) =
      map (fun i => Z.of_nat i + 1) (seq 0 (length (Store.questions doc))).
Proof.
  intros Hnow Hmix. unfold mixExam in Hmix.
  destruct (generateExamCodes V draws) as [codes|]; [|discriminate].
  destruct (variants_loop_spec now doc codes 0 _ vs Hmix) as [Hl Hp].
  split; [exact Hl|]. intros e He.
  apply list_elem_of_lookup in He as [pv He].
  destruct (Hp pv e He) as [_ Hmv]. unfold mixVariant in Hmv.
  set (seed := now (0 + pv)%nat + Z.of_nat (0 + pv) * 1000) in Hmv.
  assert (Hs : 0 <= seed) by (unfold seed; pose proof (Hnow (0 + pv)%nat); lia).
  destruct (shuffleArray_defined (Store.questions doc) seed Hs) as (ys & Hsh & Hperm).
  rewrite Hsh in Hmv.
  destruct (mixVariant_loop_fields 0 ys seed _ Hmv) as [H1 H2].
  rewrite H1, H2, (Permutation_length Hperm). split; [|reflexivity].
  apply Permutation_map. exact Hperm.
Qed.

Lemma mixExam_variant_shape_witness :
  exists vs, mixExam (fun _ => 1700000000000) [0; 2 ^ 52] doc_two 2 = inr vs /\ length vs = 2%nat.
Proof.
  eexists. split; [cbv; reflexivity|].
  apply (mixExam_variant_shape (fun _ => 1700000000000) [0; 2 ^ 52] doc_two 2);
    [intros _; lia | reflexivity].
Defined.

(** X10: with a nonnegative clock, each question of each variant of a successful [mixExam] has the number and the stem of a document question, its options carry that question's (label, content) pairs in some order, and its new labels are A, B, C, ... by position. *)
Theorem mixExam_options_from_source now draws (doc : ParsedDoc) V vs :
  (forall v, 0 <= now v) -> mixExam now draws doc V = inr vs ->
  forall e, e ∈ vs -> forall mq, mq ∈ questions e ->
    exists q, q ∈ Store.questions doc /\
      originalNumber mq = Store.number q /\ stem mq = Store.stem q /\
      map (fun mo => (originalLabel mo, content mo)) (options mq) ≡ₚ
        map (fun o => (Store.label o, Store.content o)) (Store.options q) /\
      map label (options mq) = map (fun i => labels !! i) (seq 0 (length (Store.options q))).
Proof.
  intros Hnow Hmix e He mq Hmq.
  destruct (mixExam_question_origin now draws doc V vs e mq Hnow Hmix He Hmq)
    as (q & p & seed & Hin & Hs & Hm).
  destruct (mixQuestion_fields q p seed mq Hm) as (Hn & _ & Hst & rs & m & Hso & Ho & _).
  exists q. split; [exact Hin|]. split; [exact Hn|]. split; [exact Hst|].
  rewrite Ho. apply (shuffleOptions_pairs _ (seed + Z.of_nat p) rs m); [lia | exact Hso].
Qed.

Lemma mixExam_options_from_source_witness :
  match mixExam (fun _ => 1700000000000) [0] doc_two 1 with
  | inr vs => vs <> [] /\
      Forall (fun e => Forall (fun mq => exists q, q ∈ Store.questions doc_two /\
        originalNumber mq = Store.number q) (questions e)) vs
  | inl _ => False
  end.
Proof.
  destruct (mixExam (fun _ => 1700000000000) [0] doc_two 1) as [err|vs] eqn:E.
  - vm_compute in E. discriminate E.
  - split; [pose proof E as E'; vm_compute in E'; injection E' as <-; discriminate|].
    apply Forall_forall. intros e He. apply Forall_forall. intros mq Hmq.
    assert (Hnow : forall v : nat, 0 <= (fun _ : nat => 1700000000000) v) by (intros _; lia).
    pose proof (mixExam_options_from_source (fun _ => 1700000000000) [0] doc_two 1 vs
                  Hnow E e He mq Hmq) as (q & Hq & Hn & _).
    exists q. split; assumption.
Defined.

(** X11: [AnswerKeyTable] has as many rows as the first exam has questions (none without exams), each row has one cell per exam, and neither the original answer nor any cell of a row is the empty string. *)
Theorem AnswerKeyTable_cells_nonempty (mixedExams : list MixedExam) (originalAnswers : list string) :
  length (AnswerKeyTable mixedExams originalAnswers) =
    match mixedExams with [] => 0%nat | e :: _ => length (questions e) end /\
  forall row, row ∈ AnswerKeyTable mixedExams originalAnswers ->
    row_original row <> "" /\ length (row_cells row) = length mixedExams /\
    Forall (fun c => c <> "") (row_cells row).
Proof.
  unfold AnswerKeyTable. split; [rewrite length_map, length_seq; reflexivity|].
  intros row Hrow. apply elem_of_list_map in Hrow as (idx & <- & _). simpl.
  split; [|split].
  - destruct (originalAnswers !! idx); [apply or_dash_nonempty | discriminate].
  - apply length_map.
  - apply Forall_map. apply Forall_forall. intros e _. apply answer_cell_nonempty.
Qed.

Lemma AnswerKeyTable_cells_nonempty_witness :
  Forall (fun row => row_original row <> "")
    (AnswerKeyTable [{| examCode := Some "101"; questions :=
                        [{| originalNumber := 1; displayNumber := 1; stem := [];
                            options := []; correctAnswer := "" |}] |}] []).
Proof.
  apply Forall_forall. intros row Hrow.
  apply (proj2 (AnswerKeyTable_cells_nonempty _ _) row Hrow).
Defined.

(** X12: fed with the variants of a successful [mixExam], [MixedResultPage] navigates back to the preview page when V <= 0, and otherwise renders V variants, the document's question count, the allocated codes, and the answer table built from the document's correct labels. *)
Theorem MixedResultPage_after_mixExam now draws (doc : ParsedDoc) V vs codes jobId :
  generateExamCodes V draws = Some codes -> mixExam now draws doc V = inr vs ->
  (V <= 0 -> MixedResultPage (Some vs) (Some doc) jobId =
     Navigate ("/preview/" ++ match jobId with Some s => s | None => "" end)) /\
  (1 <= V -> MixedResultPage (Some vs) (Some doc) jobId =
     Render (Z.to_nat V) (length (Store.questions doc)) (map Some codes)
            (map Store.correct_label (Store.questions doc))
            (AnswerKeyTable vs (map Store.correct_label (Store.questions doc)))).
Proof.
  intros Hg Hmix.
  destruct (mixExam_codes now draws doc V vs codes Hg Hmix) as (Hc & Hl & Hq).
  split; intros HV.
  - destruct vs; [reflexivity|]. simpl in Hl. lia.
  - destruct vs as [|e vs']; [simpl in Hl; lia|].
    unfold MixedResultPage. rewrite <- Hc.
    rewrite (Hq e ltac:(left)). f_equal. lia.
Qed.

Lemma MixedResultPage_after_mixExam_witness :
  MixedResultPage (match mixExam (fun _ => 1700000000000) [0] doc_two 0 with
                   | inr vs => Some vs | inl _ => None end) (Some doc_two) (Some "job1")
  = Navigate "/preview/job1" /\
  match generateExamCodes 2 [0; 2 ^ 52],
        mixExam (fun _ => 1700000000000) [0; 2 ^ 52] doc_two 2 with
  | Some codes, inr vs =>
      MixedResultPage (Some vs) (Some doc_two) (Some "job1") =
      Render (Z.to_nat 2) (length (Store.questions doc_two)) (map Some codes)
             (map Store.correct_label (Store.questions doc_two))
             (AnswerKeyTable vs (map Store.correct_label (Store.questions doc_two)))
  | _, _ => False
  end.
Proof.
  split.
  - apply (proj1 (MixedResultPage_after_mixExam (fun _ => 1700000000000) [0] doc_two 0 []
                    [] (Some "job1") eq_refl eq_refl)). lia.
  - destruct (generateExamCodes 2 [0; 2 ^ 52]) as [codes|] eqn:Eg;
      [|vm_compute in Eg; discriminate Eg].
    destruct (mixExam (fun _ => 1700000000000) [0; 2 ^ 52] doc_two 2) as [err|vs] eqn:Em;
      [vm_compute in Em; discriminate Em|].
    apply (proj2 (MixedResultPage_after_mixExam (fun _ => 1700000000000) [0; 2 ^ 52]
                    doc_two 2 vs codes (Some "job1") Eg Em)). lia.
Defined.
